(** * SamuraiAgent: the query-resolution pipeline of sensei_search

    A shallow embedding of [backend/sensei_search/agents/samurai_agent.py].

    Conventions of the embedding.
    - A Python [str] is a Rocq [string]; a character stands for the code
      point of the same number (0..255).
    - An exception is a value of [exn]; fallible code returns a [result].
    - Every awaited call on a collaborator (the event emitter, the search
      backend, the completion endpoints, the HTTP session, the chat store)
      is an [action].  A coroutine denotes a [trace] (actions composed in
      sequence and, for [asyncio.gather], in parallel) together with its
      outcome; the event loop picks one [schedule] of the trace.
    - The collaborators' answers during one run are the fields of a
      [World]. *)

From Stdlib Require Import Ascii.
From stdpp Require Import gmap strings list pretty.

Open Scope string_scope.
Open Scope list_scope.

(** ** Python string primitives *)

Module PyStr.

(** The double quote character, code point 34. *)
Definition dquote : ascii := Ascii false true false false false true false false.
(** The single quote character, code point 39. *)
Definition squote : ascii := "'"%char.
Definition comma : ascii := ","%char.
Definition colon : ascii := ":"%char.

(** [c in chars] for a character and a string. *)
Fixpoint mem (c : ascii) (chars : string) : bool :=
  match chars with
  | EmptyString => false
  | String d chars' => Ascii.eqb c d || mem c chars'
  end.

(** [str.isspace] on one code point below 256: TAB..CR, FS..US, SPACE,
    NEL and NBSP. *)
Definition isspace (c : ascii) : bool :=
  let n := nat_of_ascii c in
  (((9 <=? n) && (n <=? 13)) || ((28 <=? n) && (n <=? 31))
   || (n =? 32) || (n =? 133) || (n =? 160))%nat.

(** [s.lstrip] with the set of stripped characters given as a predicate. *)
Fixpoint lstrip_by (p : ascii → bool) (s : string) : string :=
  match s with
  | EmptyString => EmptyString
  | String c s' => if p c then lstrip_by p s' else s
  end.

(** [s.rstrip]: a character goes when it is stripped and everything
    after it went. *)
Fixpoint rstrip_by (p : ascii → bool) (s : string) : string :=
  match s with
  | EmptyString => EmptyString
  | String c s' =>
      match rstrip_by p s' with
      | EmptyString => if p c then EmptyString else String c EmptyString
      | r => String c r
      end
  end.

Definition strip_by (p : ascii → bool) (s : string) : string :=
  rstrip_by p (lstrip_by p s).

(** [s.strip(chars)] *)
Definition strip (chars : string) (s : string) : string :=
  strip_by (λ c, mem c chars) s.

(** [s.strip()] *)
Definition strip_space (s : string) : string := strip_by isspace s.

(** [s.split(sep)] for a separator of one character: the pieces between
    the occurrences of [sep], empty pieces included. *)
Fixpoint split (sep : ascii) (s : string) : list string :=
  match s with
  | EmptyString => [EmptyString]
  | String c s' =>
      if Ascii.eqb c sep then EmptyString :: split sep s'
      else match split sep s' with
           | piece :: pieces => String c piece :: pieces
           | [] => [String c EmptyString]
           end
  end.

(** [s.count(c)] for one character. *)
Fixpoint count (c : ascii) (s : string) : nat :=
  match s with
  | EmptyString => 0%nat
  | String d s' => ((if Ascii.eqb d c then 1 else 0) + count c s')%nat
  end.

(** [sep.join(parts)] for the empty separator. *)
Fixpoint join (parts : list string) : string :=
  match parts with
  | [] => EmptyString
  | p :: parts' => p +:+ join parts'
  end.

(** [sep.join(parts)] for a separator of one character. *)
Fixpoint sep_join (sep : ascii) (parts : list string) : string :=
  match parts with
  | [] => EmptyString
  | [p] => p
  | p :: parts' => p +:+ String sep (sep_join sep parts')
  end.

(** Every character of [s] satisfies [p]. *)
Fixpoint all_chars (p : ascii → bool) (s : string) : bool :=
  match s with
  | EmptyString => true
  | String c s' => p c && all_chars p s'
  end.

(** [str(o)], as an f-string formats an optional string: the text
    itself, or the four letters of [None]. *)
Definition format (o : option string) : string :=
  match o with
  | Some s => s
  | None => "None"
  end.

(** Truthiness of an optional string: [None] and the empty string are
    false. *)
Definition truthy (o : option string) : bool :=
  match o with
  | None | Some EmptyString => false
  | Some _ => true
  end.

End PyStr.

(** ** Exceptions and results *)

(** The exceptions the pipeline can meet.  [CancelledError] derives from
    [BaseException] only; all the others derive from [Exception]. *)
Inductive exn :=
| ValueError          (* dict() on an element that is not a pair *)
| ClientError         (* aiohttp: connection refused, DNS, ... *)
| TimeoutError        (* asyncio.TimeoutError *)
| UnicodeDecodeError  (* response.text() on a body that is not text *)
| APIError            (* openai: request-level failure *)
| SearchError         (* the search backend failed *)
| EmitterError        (* the transport to the client failed *)
| StoreError          (* the chat store failed *)
| CancelledError.

Definition is_Exception (e : exn) : bool :=
  match e with
  | CancelledError => false
  | _ => true
  end.

Inductive result (A : Type) :=
| Ok (a : A)
| Raise (e : exn).
Arguments Ok {A} a.
Arguments Raise {A} e.

Definition result_bind {A B} (r : result A) (f : A → result B) : result B :=
  match r with
  | Ok a => f a
  | Raise e => Raise e
  end.

(** Evaluate [f] on every element, left to right, stopping at the first
    exception (a generator consumed by a constructor). *)
Fixpoint result_map {A B} (f : A → result B) (l : list A) : result (list B) :=
  match l with
  | [] => Ok []
  | x :: l' =>
      result_bind (f x) (λ y, result_bind (result_map f l') (λ ys, Ok (y :: ys)))
  end.

(** ** Data model *)

Record QueryTags := {
  needs_search : bool;
  needs_image : bool;
  needs_video : bool;
  content_violation : bool;
  has_math : bool
}.

Record EnrichedQuery := {
  search_query : string;
  (* [run] tests [tags is not None] *)
  tags : option QueryTags
}.

Record MetaData := { metadata_has_math : bool }.

(** Modelled from the spec: [sensei_search.tools.GeneralResult] is not part
    of the agent's file.  The agent reads the keys [url], [title] and
    [content]; [other_keys] stands for whatever else the search backend
    attaches to a hit (engine, score, ...). *)
Record GeneralResult := {
  url : string;
  title : string;
  content : string;
  other_keys : list (string * string)
}.

(** Modelled from the spec: an image hit, read through [url] and [img_src]. *)
Record ImageResult := { image_url : string; img_src : string }.
(** Modelled from the spec: a video hit, read through [url]. *)
Record VideoResult := { video_url : string }.

(** Modelled from the spec: [sensei_search.tools.TopResults]. *)
Record TopResults := {
  general : list GeneralResult;
  images : list ImageResult;
  videos : list VideoResult
}.

Inductive Category := cat_general | cat_images | cat_videos.

#[export] Instance Category_eq_dec : EqDecision Category.
Proof. solve_decision. Defined.

Record SearxNGInput := { input_query : string; categories : list Category }.

(** [{"url": .., "title": .., "content": ..}] *)
Record WebResult := { web_url : string; web_title : string; web_content : string }.

(** [{"url": .., "image": .., "medium": "image"}] and
    [{"url": .., "medium": "video"}] *)
Inductive Medium :=
| MediumImage (medium_url : string) (image : string)
| MediumVideo (medium_url : string).

Record ChatHistory := {
  id : string;
  chat_thread_id : string;
  mediums : list Medium;
  web_results : list WebResult;
  query : string;
  answer : string;
  metadata : MetaData
}.

(** ** Actions, traces and schedules *)

(** [emitter.emit(type, {"data": data})], one constructor per [EventEnum]
    member the agent uses. *)
Inductive Event :=
| EvMetadata (data : MetaData)
| EvWebResults (data : list WebResult)
| EvMediumResults (data : list Medium)
| EvAnswer (data : string).

(** The three completion requests.  The prompt templates live in
    [sensei_search.prompts]; a request is told apart by its role, and the
    answer request by the grounding text it embeds. *)
Inductive Prompt :=
| SearchPrompt
| ClassificationPrompt
| AnswerPrompt (search_results : string).

Inductive action :=
| LoadChatHistory                                  (* self.load_chat_history *)
| ChatCompletion (prompt : Prompt)                 (* client.chat.completions.create *)
| StreamChunk (delta : option string)              (* next chunk of the streamed response *)
| Emit (e : Event)                                 (* self.emitter.emit *)
| SearxNG (input : SearxNGInput)                   (* searxng_search_results_json *)
| SessionGet (page_url : string)                   (* session.get(url); response.text() *)
| LogException (e : exn)                           (* logger.exception *)
| SaveChatHistory (thread : string) (h : ChatHistory). (* chat_store.save_chat_history *)

Inductive trace :=
| Nop
| Act (a : action)
| Seq (t1 t2 : trace)     (* t1, then t2 *)
| Par (t1 t2 : trace).    (* t1 and t2 as tasks of one asyncio.gather *)

(** The merges of two sequences that keep the order of each. *)
Inductive interleave {A : Type} : list A → list A → list A → Prop :=
| interleave_nil : interleave [] [] []
| interleave_left a l1 l2 l :
    interleave l1 l2 l → interleave (a :: l1) l2 (a :: l)
| interleave_right a l1 l2 l :
    interleave l1 l2 l → interleave l1 (a :: l2) (a :: l).

(** The orders in which the event loop can perform the actions of a trace. *)
Inductive schedule : trace → list action → Prop :=
| schedule_nop : schedule Nop []
| schedule_act a : schedule (Act a) [a]
| schedule_seq t1 t2 l1 l2 :
    schedule t1 l1 → schedule t2 l2 → schedule (Seq t1 t2) (l1 ++ l2)
| schedule_par t1 t2 l1 l2 l :
    schedule t1 l1 → schedule t2 l2 → interleave l1 l2 l →
    schedule (Par t1 t2) l.

(** One schedule that always exists: every task of a gather runs to its
    end before the next one starts. *)
Fixpoint sequential (t : trace) : list action :=
  match t with
  | Nop => []
  | Act a => [a]
  | Seq t1 t2 => sequential t1 ++ sequential t2
  | Par t1 t2 => sequential t1 ++ sequential t2
  end.

(** ** Coroutines *)

(** A coroutine run to its end: what it did and how it ended. *)
Record M (A : Type) := Run { trace_of : trace; outcome : result A }.
Arguments Run {A} trace_of outcome.
Arguments trace_of {A} m.
Arguments outcome {A} m.

#[export] Instance M_ret : MRet M := λ A a, Run Nop (Ok a).

(** [await m] followed by [f]: an exception of [m] ends the coroutine. *)
#[export] Instance M_bind : MBind M := λ A B f m,
  match outcome m with
  | Ok a => Run (Seq (trace_of m) (trace_of (f a))) (outcome (f a))
  | Raise e => Run (trace_of m) (Raise e)
  end.

(** A pure step that may raise. *)
Definition pure {A} (r : result A) : M A := Run Nop r.

(** One call on a collaborator, with the collaborator's answer. *)
Definition perform {A} (a : action) (r : result A) : M A := Run (Act a) r.

(** [try: body / except Exception as e: handler(e)] *)
Definition try_except {A} (body : M A) (handler : exn → M A) : M A :=
  match outcome body with
  | Ok _ => body
  | Raise e =>
      if is_Exception e
      then Run (Seq (trace_of body) (trace_of (handler e))) (outcome (handler e))
      else body
  end.

(** [await asyncio.gather(m1, m2)]: both tasks run, their actions
    interleave, the results come back in argument order.  When one task
    raises, gather propagates its exception.  When several raise, asyncio
    propagates the one raised first in time; the outcome below names the
    leftmost one, and every property of this file is stated so as to hold
    whichever of them is propagated. *)
Definition gather2 {A B} (m1 : M A) (m2 : M B) : M (A * B) :=
  Run (Par (trace_of m1) (trace_of m2))
      (match outcome m1, outcome m2 with
       | Ok a, Ok b => Ok (a, b)
       | Raise e, _ => Raise e
       | Ok _, Raise e => Raise e
       end).

Definition gather3 {A B C} (m1 : M A) (m2 : M B) (m3 : M C) : M (A * B * C) :=
  Run (Par (trace_of m1) (Par (trace_of m2) (trace_of m3)))
      (match outcome m1, outcome m2, outcome m3 with
       | Ok a, Ok b, Ok c => Ok (a, b, c)
       | Raise e, _, _ => Raise e
       | Ok _, Raise e, _ => Raise e
       | Ok _, Ok _, Raise e => Raise e
       end).

(** [await asyncio.gather] applied to the unpacked list [tasks] *)
Fixpoint gather {A} (tasks : list (M A)) : M (list A) :=
  match tasks with
  | [] => Run Nop (Ok [])
  | m :: tasks' =>
      let rest := gather tasks' in
      Run (Par (trace_of m) (trace_of rest))
          (match outcome m, outcome rest with
           | Ok a, Ok l => Ok (a :: l)
           | Raise e, _ => Raise e
           | Ok _, Raise e => Raise e
           end)
  end.

(** ** The collaborators *)

(** A streamed completion: the chunks' [choices[0].delta.content] in
    arrival order, and the exception that ends the stream, if any. *)
Record Stream := { chunks : list (option string); stream_error : option exn }.

Record World := {
  (* self.thread_id *)
  thread_id : string;
  (* BaseAgent.load_chat_history(self.thread_id, ["user"]) *)
  load_chat_history : result unit;
  (* choices[0].message.content of the answer to the rewrite request *)
  search_completion : result string;
  (* choices[0].message.content of the answer to the classification request *)
  classification_completion : result string;
  (* the streamed answer, given the grounding text of the prompt *)
  answer_completion : string → result Stream;
  (* self.emitter.emit; the number counts the events of the same type the
     run has emitted before, so that an emitter can take a fragment and
     refuse an equal one later *)
  emitter_emit : nat → Event → result unit;
  (* sensei_search.tools.searxng_search_results_json *)
  searxng_search_results_json : SearxNGInput → result TopResults;
  (* session.get(url) and response.text() of the i-th task of one batch *)
  session_get : nat → string → result string;
  (* trafilatura.extract, the main-content extractor of an external
     library: the extracted text, or [None] when it extracts nothing *)
  trafilatura_extract : string → option string;
  (* str(uuid.uuid4()) *)
  uuid4 : string;
  (* ChatStore().save_chat_history *)
  save_chat_history : string → ChatHistory → result unit
}.

(** ** SamuraiAgent *)

(** *** Classification parsing (the pure part of [process_user_query]) *)

(** The arguments of the two [strip] calls: the string made of one double
    quote, and the string made of one single quote. *)
Definition dquote_chars : string := String PyStr.dquote EmptyString.
Definition squote_chars : string := String PyStr.squote EmptyString.

(** [content.strip(dq).strip(sq)], with [dq] the double-quote string and
    [sq] the single-quote string: the double quotes go first, then the
    single quotes. *)
Definition strip_quotes (content : string) : string :=
  PyStr.strip squote_chars (PyStr.strip dquote_chars content).

(** One element of the generator [tag.strip().split(":")], as [dict]
    takes it: a sequence of exactly two items, or a [ValueError]. *)
Definition tag_pair (tag : string) : result (string * string) :=
  match PyStr.split PyStr.colon (PyStr.strip_space tag) with
  | [key; value] => Ok (key, value)
  | _ => Raise ValueError
  end.

(** The pairs [dict] receives from
    [tag.strip().split(":") for tag in classify_response.split(",")]. *)
Definition tag_pairs (classify_response : string) : result (list (string * string)) :=
  result_map tag_pair (PyStr.split PyStr.comma classify_response).

(** [dict(pairs)]: a later pair overrides an earlier one with the same key. *)
Definition dict (pairs : list (string * string)) : gmap string string :=
  foldl (λ d kv, <[kv.1 := kv.2]> d) ∅ pairs.

(** [tags_dict.get(key, fallback).strip() == "YES"] *)
Definition tag_is_yes (tags_dict : gmap string string) (key fallback : string) : bool :=
  bool_decide (PyStr.strip_space (default fallback (tags_dict !! key)) = "YES").

Definition query_tags (tags_dict : gmap string string) : QueryTags :=
  {| needs_search := tag_is_yes tags_dict "SEARCH_NEEDED" "YES";
     needs_image := tag_is_yes tags_dict "SEARCH_IMAGE" "YES";
     needs_video := tag_is_yes tags_dict "SEARCH_VIDEO" "YES";
     content_violation := tag_is_yes tags_dict "CONTENT_VIOLATION" "NO";
     has_math := tag_is_yes tags_dict "MATH" "NO" |}.

(** From the raw classification output to the tags. *)
Definition classify (content : string) : result QueryTags :=
  result_bind (tag_pairs (strip_quotes content)) (λ pairs, Ok (query_tags (dict pairs))).

(** *** Result trimming *)

(** [{"url": res["url"], "title": res["title"], "content": res["content"]}] *)
Definition trim_result (res : GeneralResult) : WebResult :=
  {| web_url := url res; web_title := title res; web_content := content res |}.

(** The flattened media items: the images, then the videos. *)
Definition flatten_mediums (results : TopResults) : list Medium :=
  (map (λ image, MediumImage (image_url image) (img_src image)) (images results)
   ++ map (λ video, MediumVideo (video_url video)) (videos results))%list.

Definition newline : string := String (ascii_of_nat 10) EmptyString.

(** The grounding text: [f"Document: {i + 1}\n{page}\n\n"] for every page. *)
Definition search_results_text (web_pages : list (option string)) : string :=
  PyStr.join (imap (λ i page,
    "Document: " +:+ pretty (i + 1)%nat +:+ newline +:+ PyStr.format page
    +:+ newline +:+ newline)
    web_pages).

Section Agent.

Variable w : World.

(** [self.emitter.emit], as the emission of rank [sent] of its event type. *)
Definition emit (sent : nat) (e : Event) : M unit :=
  perform (Emit e) (emitter_emit w sent e).

Definition emit_metadata (metadata : MetaData) : M unit :=
  emit 0 (EvMetadata metadata).

Definition emit_web_results (results : list GeneralResult) : M unit :=
  let filtered_results := map trim_result results in
  emit 0 (EvWebResults filtered_results).

Definition emit_medium_results (results : TopResults) : M unit :=
  let filtered_results := flatten_mediums results in
  emit 0 (EvMediumResults filtered_results).

(** The fragments of one answer are told apart by their rank [sent]. *)
Definition emit_answer (sent : nat) (answer : string) : M unit :=
  emit sent (EvAnswer answer).

Definition process_user_query : M EnrichedQuery :=
  '(search_response, classification_response) ←
    gather2 (perform (ChatCompletion SearchPrompt) (search_completion w))
            (perform (ChatCompletion ClassificationPrompt) (classification_completion w));
  query_tags ← pure (classify classification_response);
  let query := strip_quotes search_response in
  mret {| search_query := query; tags := Some query_tags |}.

(** The [i]-th task of a batch.  Opening and closing the [ClientSession]
    around the [try] is taken not to fail; a caught exception leaves the
    function without a [return], hence with [None]. *)
Definition fetch_page (i : nat) (url : string) : M (option string) :=
  try_except
    (text ← perform (SessionGet url) (session_get w i url); mret (Some text))
    (λ e, perform (LogException e) (Ok None)).

Definition fetch_web_pages (results : list GeneralResult) : M (list (option string)) :=
  let tasks := imap (λ i result, fetch_page i (url result)) results in
  html_web_pages ← gather tasks;
  mret (map (λ page, trafilatura_extract w (default EmptyString page)) html_web_pages).

(** The loop [for chunk in response] of [gen_answer]. *)
Fixpoint consume (chunks : list (option string)) (stream_error : option exn)
    (final_answer_parts : list string) : M (list string) :=
  match chunks with
  | [] =>
      match stream_error with
      | None => mret final_answer_parts
      | Some e => pure (Raise e)
      end
  | delta :: chunks' =>
      _ ← perform (StreamChunk delta) (Ok ());
      if PyStr.truthy delta then
        let content := default EmptyString delta in
        _ ← emit_answer (length final_answer_parts) content;
        consume chunks' stream_error (final_answer_parts ++ [content])%list
      else consume chunks' stream_error final_answer_parts
  end.

Definition gen_answer (web_pages : list (option string)) : M string :=
  let search_results := search_results_text web_pages in
  response ← perform (ChatCompletion (AnswerPrompt search_results))
                     (answer_completion w search_results);
  final_answer_parts ← consume (chunks response) (stream_error response) [];
  mret (PyStr.join final_answer_parts).

Definition noop : M (option TopResults) := mret None.

(** The categories of the second search (the block after the first
    [tasks] list of [run]). *)
Definition medium_categories (tags : option QueryTags) : list Category :=
  match tags with
  | Some t =>
      ((if needs_image t then [cat_images] else [])
       ++ (if needs_video t then [cat_videos] else []))%list
  | None => []
  end.

(** The third task of the second gather: the media search when
    [categories] is not empty, the placeholder [noop()] otherwise. *)
Definition search_mediums (query : string) (categories : list Category)
    : M (option TopResults) :=
  match categories with
  | _ :: _ =>
      let search_input := {| input_query := query; categories := categories |} in
      r ← perform (SearxNG search_input) (searxng_search_results_json w search_input);
      mret (Some r)
  | [] => noop
  end.

(** The record [run] hands to the chat store. *)
Definition chat_history_record (tags : option QueryTags)
    (general_results : list GeneralResult) (medium_results : TopResults)
    (user_message answer : string) : ChatHistory :=
  (* a TopResults carries its three keys, so [if medium_results:] holds *)
  let mediums := flatten_mediums medium_results in
  let web_results := map trim_result general_results in
  let metadata := {| metadata_has_math := false |} in
  let metadata :=
    match tags with
    | Some t => if has_math t then {| metadata_has_math := true |} else metadata
    | None => metadata
    end in
  {| id := uuid4 w;
     chat_thread_id := thread_id w;
     mediums := mediums;
     web_results := web_results;
     query := user_message;
     answer := answer;
     metadata := metadata |}.

(** The entry point.  Appending the user message to the working history
    and the logger calls are local and leave no action. *)
Definition run (user_message : string) : M unit :=
  _ ← perform LoadChatHistory (load_chat_history w);
  enriched_query ← process_user_query;
  let query := search_query enriched_query in
  let search_input := {| input_query := query; categories := [cat_general] |} in
  let tags := tags enriched_query in
  let metadata :=
    {| metadata_has_math := match tags with Some t => has_math t | None => false end |} in
  '(search_results, _) ←
    gather2 (perform (SearxNG search_input) (searxng_search_results_json w search_input))
            (emit_metadata metadata);
  let general_results := general search_results in
  let categories := medium_categories tags in
  '(_, web_pages, medium_results) ←
    gather3 (emit_web_results general_results)
            (fetch_web_pages (take 5 general_results))
            (search_mediums query categories);
  let medium_results :=
    match medium_results with
    | Some r => r
    | None => {| general := []; images := []; videos := [] |}
    end in
  '(answer, _) ← gather2 (gen_answer web_pages) (emit_medium_results medium_results);
  let chat_history :=
    chat_history_record tags general_results medium_results user_message answer in
  perform (SaveChatHistory (thread_id w) chat_history)
          (save_chat_history w (thread_id w) chat_history).

End Agent.

(** ** The specification's wording of the two parsers *)

(** [key:value] *)
Definition key_value (kv : string * string) : string :=
  kv.1 +:+ String PyStr.colon kv.2.

(** The items, with a comma between neighbours. *)
Definition comma_separated (items : list string) : string :=
  PyStr.sep_join PyStr.comma items.

(** A field of a pair: any text without comma and colon. *)
Definition is_field (s : string) : Prop :=
  PyStr.count PyStr.comma s = 0%nat ∧ PyStr.count PyStr.colon s = 0%nat.

(** The output is a comma-separated list of at least one KEY:VALUE pair. *)
Definition key_value_pairs (content : string) : Prop :=
  ∃ pairs : list (string * string),
    pairs ≠ [] ∧ Forall (λ kv, is_field kv.1 ∧ is_field kv.2) pairs
    ∧ content = comma_separated (map key_value pairs).

(** The five keys of a classification. *)
Definition recognized_keys : list string :=
  ["SEARCH_NEEDED"; "SEARCH_IMAGE"; "SEARCH_VIDEO"; "CONTENT_VIOLATION"; "MATH"].

Definition is_quote (c : ascii) : bool :=
  Ascii.eqb c PyStr.dquote || Ascii.eqb c PyStr.squote.


(** The number of colons in every comma-separated piece. *)
Definition colon_profile (s : string) : list nat :=
  map (PyStr.count PyStr.colon) (PyStr.split PyStr.comma s).

(** ** Observations on a schedule *)

Definition is_save (a : action) : bool :=
  match a with SaveChatHistory _ _ => true | _ => false end.

(** The text fragments sent to the client, in the order of the schedule. *)
Definition answer_fragments (l : list action) : list string :=
  omap (λ a, match a with Emit (EvAnswer data) => Some data | _ => None end) l.

(** The URLs requested by the page fetcher, in the order of the schedule. *)
Definition fetched_urls (l : list action) : list string :=
  omap (λ a, match a with SessionGet u => Some u | _ => None end) l.

(** The inputs of the search calls, in the order of the schedule. *)
Definition search_inputs (l : list action) : list SearxNGInput :=
  omap (λ a, match a with SearxNG i => Some i | _ => None end) l.

(** The fragments of a stream: the chunks that carry text. *)
Definition fragments (chunks : list (option string)) : list string :=
  omap (λ delta, if PyStr.truthy delta then delta else None) chunks.

(** ** Sample worlds *)

Definition hit (u : string) : GeneralResult :=
  {| url := u; title := "Mars"; content := "The red planet";
     other_keys := [("engine", "duckduckgo"); ("score", "1.0")] |}.

(** Five chunks, three of them without text. *)
Definition sample_stream : list (option string) :=
  [Some EmptyString; Some "Mars is "; None; Some "far."; None].

(** A world where every collaborator answers, but for the second page
    retrieval of a batch, which times out; the search backend knows seven
    pages and no media; the extractor finds nothing in an empty page. *)
Definition calm_world (rewrite classification : string) : World :=
  {| thread_id := "thread-1";
     load_chat_history := Ok ();
     search_completion := Ok rewrite;
     classification_completion := Ok classification;
     answer_completion := λ _,
       Ok {| chunks := sample_stream; stream_error := None |};
     emitter_emit := λ _ _, Ok ();
     searxng_search_results_json := λ input,
       Ok {| general :=
               if bool_decide (cat_general ∈ categories input)
               then map hit ["u1"; "u2"; "u3"; "u4"; "u5"; "u6"; "u7"] else [];
             images := []; videos := [] |};
     session_get := λ i u,
       if bool_decide (i = 1%nat) then Raise TimeoutError else Ok ("<p>" +:+ u +:+ "</p>");
     trafilatura_extract := λ html,
       if bool_decide (html = EmptyString) then None else Some html;
     uuid4 := "0b6f6f3e";
     save_chat_history := λ _ _, Ok () |}.

Definition sample_world : World := calm_world "Mars" "MATH:NO".

Definition sample_results : list GeneralResult := map hit ["a"; "b"; "c"].


(** The classification asks for images; the backend has none. *)
Definition image_world : World := calm_world "Mars" "SEARCH_IMAGE:YES,SEARCH_VIDEO:NO".

(** The classification model answers in prose. *)
Definition prose_world : World := calm_world "Mars" "A search is needed".

(** ** Auxiliary notions of the proofs *)

(** The colon profile of [c :: s] from the profile of [s]. *)
Definition profile_step (c : ascii) (profile : list nat) : list nat :=
  if Ascii.eqb c PyStr.comma then 0%nat :: profile
  else ((if Ascii.eqb c PyStr.colon then 1 else 0) + hd 0 profile)%nat :: tl profile.

(** What the task of one result hands to [gather] when it returns. *)
Definition fetched (w : World) (i : nat) (result : GeneralResult) : option string :=
  match session_get w i (url result) with
  | Ok text => Some text
  | Raise _ => None
  end.

(** The actions of the page fetcher. *)
Definition fetch_alphabet (a : action) : Prop :=
  match a with
  | SessionGet _ | LogException _ => True
  | _ => False
  end.

(** No [asyncio.gather] inside. *)
Fixpoint par_free (t : trace) : bool :=
  match t with
  | Nop | Act _ => true
  | Seq t1 t2 => par_free t1 && par_free t2
  | Par _ _ => false
  end.

(** What the loop of [gen_answer] does with a stream: every chunk arrives,
    and a chunk that carries text is sent to the client before the next
    chunk is taken. *)
Definition stream_actions (chunks : list (option string)) : list action :=
  mjoin (map (λ delta,
    StreamChunk delta ::
    if PyStr.truthy delta then [Emit (EvAnswer (default EmptyString delta))] else [])
    chunks).

(** The media results [run] goes on with: those of the media search, or
    the empty substitute when the search was skipped. *)
Definition or_empty (medium_results : option TopResults) : TopResults :=
  match medium_results with
  | Some r => r
  | None => {| general := []; images := []; videos := [] |}
  end.

Definition general_input (query : string) : SearxNGInput :=
  {| input_query := query; categories := [cat_general] |}.

(** The trace of a run that reaches its end, from the values it met: the
    rewrite output, the tags, the general search results, the fetched
    pages, the media results and the answer. *)
Definition run_trace (w : World) (user_message rewrite : string) (t : QueryTags)
    (search_results : TopResults) (web_pages : list (option string))
    (medium_results : option TopResults) (answer : string) : trace :=
  let query := strip_quotes rewrite in
  Seq (Act LoadChatHistory)
  (Seq (trace_of (process_user_query w))
  (Seq (Par (Act (SearxNG (general_input query)))
            (Act (Emit (EvMetadata {| metadata_has_math := has_math t |}))))
  (Seq (Par (Act (Emit (EvWebResults (map trim_result (general search_results)))))
            (Par (trace_of (fetch_web_pages w (take 5 (general search_results))))
                 (trace_of (search_mediums w query (medium_categories (Some t))))))
  (Seq (Par (trace_of (gen_answer w web_pages))
            (Act (Emit (EvMediumResults (flatten_mediums (or_empty medium_results))))))
       (Act (SaveChatHistory (thread_id w)
               (chat_history_record w (Some t) (general search_results)
                  (or_empty medium_results) user_message answer))))))).

(** The payloads of the medium-results events, in the order of the schedule. *)
Definition medium_payloads (l : list action) : list (list Medium) :=
  omap (λ a, match a with Emit (EvMediumResults data) => Some data | _ => None end) l.

(** The actions a run performs before it starts the answer. *)
Definition early_alphabet (a : action) : Prop :=
  match a with
  | LoadChatHistory | ChatCompletion _ | SearxNG _ | SessionGet _ | LogException _
  | Emit (EvMetadata _) | Emit (EvWebResults _) => True
  | _ => False
  end.

(** The tags [run] works with: those of the classification output, when
    it is there and parses. *)
Definition tags_of_run (w : World) : option QueryTags :=
  match classification_completion w with
  | Ok content =>
      match classify content with
      | Ok t => Some t
      | Raise _ => None
      end
  | Raise _ => None
  end.

(** ** Further observations and worlds *)

(** The exceptions handed to [logger.exception], in the order of the schedule. *)
Definition logged_exceptions (l : list action) : list exn :=
  omap (λ a, match a with LogException e => Some e | _ => None end) l.

(** The exceptions [except Exception] catches in a batch, in the order of
    the results. *)
Definition caught_failures (w : World) (results : list GeneralResult) : list exn :=
  concat (imap (λ i result,
    match session_get w i (url result) with
    | Ok _ => []
    | Raise e => if is_Exception e then [e] else []
    end) results).


(** The world [w] with another answer to the classification request. *)
Definition with_classification (w : World) (content : string) : World :=
  {| thread_id := thread_id w;
     load_chat_history := load_chat_history w;
     search_completion := search_completion w;
     classification_completion := Ok content;
     answer_completion := answer_completion w;
     emitter_emit := emitter_emit w;
     searxng_search_results_json := searxng_search_results_json w;
     session_get := session_get w;
     trafilatura_extract := trafilatura_extract w;
     uuid4 := uuid4 w;
     save_chat_history := save_chat_history w |}.

(** The field of the tags a recognized key sets. *)
Definition tag_field (key : string) (t : QueryTags) : option bool :=
  if bool_decide (key = "SEARCH_NEEDED") then Some (needs_search t)
  else if bool_decide (key = "SEARCH_IMAGE") then Some (needs_image t)
  else if bool_decide (key = "SEARCH_VIDEO") then Some (needs_video t)
  else if bool_decide (key = "CONTENT_VIOLATION") then Some (content_violation t)
  else if bool_decide (key = "MATH") then Some (has_math t)
  else None.

(** The sample world with a stream that breaks after its five chunks. *)
Definition broken_stream_world : World :=
  {| thread_id := thread_id sample_world;
     load_chat_history := load_chat_history sample_world;
     search_completion := search_completion sample_world;
     classification_completion := classification_completion sample_world;
     answer_completion := λ _,
       Ok {| chunks := sample_stream; stream_error := Some APIError |};
     emitter_emit := emitter_emit sample_world;
     searxng_search_results_json := searxng_search_results_json sample_world;
     session_get := session_get sample_world;
     trafilatura_extract := trafilatura_extract sample_world;
     uuid4 := uuid4 sample_world;
     save_chat_history := save_chat_history sample_world |}.

(** A stream that says the same fragment twice. *)
Definition echo_stream : list (option string) :=
  [Some "very "; None; Some "very "; Some "far."].

(** The sample world with the echoing stream and a client that is lost
    after the first fragment: the transport takes the first emission of
    the answer and refuses the second one, although it is the same text. *)
Definition deaf_client_world : World :=
  {| thread_id := thread_id sample_world;
     load_chat_history := load_chat_history sample_world;
     search_completion := search_completion sample_world;
     classification_completion := classification_completion sample_world;
     answer_completion := λ _, Ok {| chunks := echo_stream; stream_error := None |};
     emitter_emit := λ sent e,
       match e with
       | EvAnswer _ => if bool_decide (sent = 1%nat) then Raise EmitterError else Ok ()
       | _ => Ok ()
       end;
     searxng_search_results_json := searxng_search_results_json sample_world;
     session_get := session_get sample_world;
     trafilatura_extract := trafilatura_extract sample_world;
     uuid4 := uuid4 sample_world;
     save_chat_history := save_chat_history sample_world |}.

(** The sample world where the third page retrieval of a batch is
    cancelled, and where the search backend is down. *)
Definition cancelled_world : World :=
  {| thread_id := thread_id sample_world;
     load_chat_history := load_chat_history sample_world;
     search_completion := search_completion sample_world;
     classification_completion := classification_completion sample_world;
     answer_completion := answer_completion sample_world;
     emitter_emit := emitter_emit sample_world;
     searxng_search_results_json := λ _, Raise SearchError;
     session_get := λ i u,
       if bool_decide (i = 2%nat) then Raise CancelledError
       else session_get sample_world i u;
     trafilatura_extract := trafilatura_extract sample_world;
     uuid4 := uuid4 sample_world;
     save_chat_history := save_chat_history sample_world |}.

(** The sample world with a chat store that refuses the record. *)
Definition full_store_world : World :=
  {| thread_id := thread_id sample_world;
     load_chat_history := load_chat_history sample_world;
     search_completion := search_completion sample_world;
     classification_completion := classification_completion sample_world;
     answer_completion := answer_completion sample_world;
     emitter_emit := emitter_emit sample_world;
     searxng_search_results_json := searxng_search_results_json sample_world;
     session_get := session_get sample_world;
     trafilatura_extract := trafilatura_extract sample_world;
     uuid4 := uuid4 sample_world;
     save_chat_history := λ _ _, Raise StoreError |}.

(** The actions of the answer synthesizer. *)
Definition answer_alphabet (a : action) : Prop :=
  match a with
  | ChatCompletion _ | StreamChunk _ | Emit (EvAnswer _) => True
  | _ => False
  end.

(** The events the client receives, in the order of the schedule. *)
Definition events (l : list action) : list Event :=
  omap (λ a, match a with Emit e => Some e | _ => None end) l.

(** The prompts of the completion requests, in the order of the schedule. *)
Definition prompts (l : list action) : list Prompt :=
  omap (λ a, match a with ChatCompletion p => Some p | _ => None end) l.

(** ** Stripping, said without the stripping functions *)

(** [q] is [s] with the characters [c] taken off its two ends: [s] is [q]
    between two runs of [c], and [q] neither begins nor ends with [c]. *)
Definition stripped_of (c : ascii) (s q : string) : Prop :=
  ∃ opening closing,
    s = opening +:+ q +:+ closing
    ∧ PyStr.all_chars (Ascii.eqb c) opening = true
    ∧ PyStr.all_chars (Ascii.eqb c) closing = true
    ∧ (∀ rest, q ≠ String c rest)
    ∧ (∀ start, q ≠ start +:+ String c EmptyString).

(** The rewrite model answers with single quotes inside double quotes. *)
Definition quoted_world : World :=
  calm_world (String PyStr.dquote "'How far is Mars'" +:+ dquote_chars) "MATH:NO".

(** The sample world with a backend that knows two images and one video,
    and a classification that asks for both. *)
Definition media_world : World :=
  {| thread_id := thread_id sample_world;
     load_chat_history := load_chat_history sample_world;
     search_completion := search_completion sample_world;
     classification_completion := Ok "SEARCH_IMAGE:YES,SEARCH_VIDEO:YES,MATH:YES";
     answer_completion := answer_completion sample_world;
     emitter_emit := emitter_emit sample_world;
     searxng_search_results_json := λ input,
       Ok {| general :=
               if bool_decide (cat_general ∈ categories input)
               then map hit ["u1"; "u2"; "u3"] else [];
             images :=
               if bool_decide (cat_images ∈ categories input)
               then [{| image_url := "i1"; img_src := "i1.png" |};
                     {| image_url := "i2"; img_src := "i2.png" |}]
               else [];
             videos :=
               if bool_decide (cat_videos ∈ categories input)
               then [{| video_url := "v1" |}] else [] |};
     session_get := session_get sample_world;
     trafilatura_extract := trafilatura_extract sample_world;
     uuid4 := uuid4 sample_world;
     save_chat_history := save_chat_history sample_world |}.


(** * Properties *)

(** ** The primitives on sample inputs *)

Example split_keeps_empty_pieces :
  PyStr.split PyStr.comma "a,,b," = ["a"; EmptyString; "b"; EmptyString].
Proof. reflexivity. Qed.

Example split_of_empty : PyStr.split PyStr.comma EmptyString = [EmptyString].
Proof. reflexivity. Qed.

Example strip_space_both_ends : PyStr.strip_space "  a b  " = "a b".
Proof. reflexivity. Qed.

(** Double quotes inside single quotes survive: the double quotes are
    stripped first, and then they are not at the ends. *)
Example strip_quotes_order :
  strip_quotes (String PyStr.dquote "'Mars'" +:+ dquote_chars) = "Mars"
  ∧ strip_quotes ("'" +:+ String PyStr.dquote "Mars" +:+ dquote_chars +:+ "'")
    = String PyStr.dquote "Mars" +:+ dquote_chars.
Proof. split; reflexivity. Qed.

Example classify_scenario_B :
  classify "SEARCH_NEEDED:YES,SEARCH_IMAGE:NO,SEARCH_VIDEO:NO,CONTENT_VIOLATION:NO,MATH:YES"
  = Ok {| needs_search := true; needs_image := false; needs_video := false;
          content_violation := false; has_math := true |}.
Proof. vm_compute. reflexivity. Qed.

Example classify_later_pair_wins :
  has_math <$> (match classify "MATH:NO, MATH: YES" with Ok t => Some t | Raise _ => None end)
  = Some true.
Proof. vm_compute. reflexivity. Qed.

Example classify_empty_output : classify EmptyString = Raise ValueError.
Proof. reflexivity. Qed.

Example classify_two_colons : classify "MATH:YES:NO" = Raise ValueError.
Proof. reflexivity. Qed.

Example fetch_web_pages_sample :
  outcome (fetch_web_pages sample_world sample_results)
  = Ok [Some "<p>a</p>"; None; Some "<p>c</p>"].
Proof. reflexivity. Qed.

(** ** Strings *)

Section StringFacts.

Import PyStr.

Lemma append_assoc (s1 s2 s3 : string) : (s1 +:+ s2) +:+ s3 = s1 +:+ (s2 +:+ s3).
Proof.
  induction s1 as [|c s1 IH]; [done|].
  change (String c ((s1 +:+ s2) +:+ s3) = String c (s1 +:+ (s2 +:+ s3))).
  by rewrite IH.
Qed.

Lemma append_nil_r (s : string) : s +:+ EmptyString = s.
Proof.
  induction s as [|c s IH]; [done|].
  change (String c (s +:+ EmptyString) = String c s). by rewrite IH.
Qed.

Lemma count_app c s1 s2 : count c (s1 +:+ s2) = (count c s1 + count c s2)%nat.
Proof. induction s1 as [|d s1 IH]; simpl; [done|]. rewrite IH. lia. Qed.

Lemma split_nonempty sep s : split sep s ≠ [].
Proof. destruct s as [|c s]; simpl; [done|]. destruct (Ascii.eqb c sep); [done|]. by destruct (split sep s). Qed.

Lemma split_cons sep c s :
  split sep (String c s) =
    if Ascii.eqb c sep then EmptyString :: split sep s
    else String c (hd EmptyString (split sep s)) :: tl (split sep s).
Proof.
  simpl. destruct (Ascii.eqb c sep); [done|].
  pose proof (split_nonempty sep s). by destruct (split sep s).
Qed.

Lemma split_length sep s : length (split sep s) = S (count sep s).
Proof.
  induction s as [|c s IH]; [done|].
  rewrite split_cons. simpl. destruct (Ascii.eqb c sep); simpl; [by rewrite IH|].
  pose proof (split_nonempty sep s). destruct (split sep s); [done|]. simpl in *. lia.
Qed.

Lemma split_no_sep sep s : Forall (λ piece, count sep piece = 0%nat) (split sep s).
Proof.
  induction s as [|c s IH]; [by repeat constructor|].
  rewrite split_cons. destruct (Ascii.eqb c sep) eqn:E; [by constructor|].
  pose proof (split_nonempty sep s). destruct (split sep s) as [|p ps]; [done|].
  inversion IH; subst. constructor; [|done]. simpl. by rewrite E.
Qed.

Lemma sep_join_cons sep p q parts :
  sep_join sep (p :: q :: parts) = p +:+ String sep (sep_join sep (q :: parts)).
Proof. done. Qed.

Lemma sep_join_split sep s : sep_join sep (split sep s) = s.
Proof.
  induction s as [|c s IH]; [done|].
  rewrite split_cons. destruct (Ascii.eqb c sep) eqn:E.
  - apply Ascii.eqb_eq in E as ->.
    pose proof (split_nonempty sep s). destruct (split sep s) as [|p ps]; [done|].
    rewrite sep_join_cons, IH. done.
  - pose proof (split_nonempty sep s). destruct (split sep s) as [|p ps]; [done|].
    simpl hd; simpl tl. destruct ps as [|q ps].
    + simpl in *. by rewrite IH.
    + rewrite sep_join_cons. rewrite sep_join_cons in IH.
      change (String c p +:+ ?x) with (String c (p +:+ x)). by rewrite IH.
Qed.

Lemma split_no_sep_id sep s : count sep s = 0%nat → split sep s = [s].
Proof.
  induction s as [|c s IH]; [done|]. simpl.
  destruct (Ascii.eqb c sep); [done|]. intros H. by rewrite IH.
Qed.

Lemma split_app_sep sep p s :
  count sep p = 0%nat → split sep (p +:+ String sep s) = p :: split sep s.
Proof.
  induction p as [|c p IH]; simpl.
  - by rewrite Ascii.eqb_refl.
  - destruct (Ascii.eqb c sep); [done|]. intros H. by rewrite IH.
Qed.

Lemma split_sep_join sep parts :
  parts ≠ [] → Forall (λ piece, count sep piece = 0%nat) parts →
  split sep (sep_join sep parts) = parts.
Proof.
  induction parts as [|p parts IH]; [done|]. intros _ Hall.
  inversion Hall as [|? ? Hp Hparts]; subst.
  destruct parts as [|q parts]; [by apply split_no_sep_id|].
  rewrite sep_join_cons, split_app_sep by done. by rewrite IH.
Qed.

Lemma count_lstrip_by p c s :
  p c = false → count c (lstrip_by p s) = count c s.
Proof.
  intros Hc. induction s as [|d s IH]; [done|]. simpl.
  destruct (p d) eqn:Hd; [|done]. rewrite IH.
  destruct (Ascii.eqb d c) eqn:E; [|done]. apply Ascii.eqb_eq in E. congruence.
Qed.

Lemma count_rstrip_by p c s :
  p c = false → count c (rstrip_by p s) = count c s.
Proof.
  intros Hc. induction s as [|d s IH]; [done|]. simpl.
  destruct (rstrip_by p s) eqn:Hr.
  - simpl in IH. rewrite <- IH. destruct (p d) eqn:Hd; simpl; [|lia].
    destruct (Ascii.eqb d c) eqn:E; [|done]. apply Ascii.eqb_eq in E. congruence.
  - rewrite <- IH. done.
Qed.

Lemma count_strip_by p c s :
  p c = false → count c (strip_by p s) = count c s.
Proof. intros. unfold strip_by. by rewrite count_rstrip_by, count_lstrip_by. Qed.

End StringFacts.

(** ** The shape of a classification output *)

Section Classification.

Import PyStr.

Lemma colon_profile_cons c s :
  colon_profile (String c s) = profile_step c (colon_profile s).
Proof.
  unfold colon_profile, profile_step. rewrite split_cons.
  destruct (Ascii.eqb c comma); [done|].
  pose proof (split_nonempty comma s). by destruct (split comma s).
Qed.

Lemma profile_step_neutral c profile :
  profile ≠ [] → Ascii.eqb c comma = false → Ascii.eqb c colon = false →
  profile_step c profile = profile.
Proof. intros Hne H1 H2. unfold profile_step. rewrite H1, H2. by destruct profile. Qed.

Lemma colon_profile_nonempty s : colon_profile s ≠ [].
Proof.
  unfold colon_profile. pose proof (split_nonempty comma s).
  by destruct (split comma s).
Qed.

Lemma stripped_char_neutral p c :
  p comma = false → p colon = false → p c = true →
  Ascii.eqb c comma = false ∧ Ascii.eqb c colon = false.
Proof.
  intros H1 H2 Hc. split; apply Ascii.eqb_neq; congruence.
Qed.

Lemma colon_profile_lstrip_by p s :
  p comma = false → p colon = false →
  colon_profile (lstrip_by p s) = colon_profile s.
Proof.
  intros H1 H2. induction s as [|c s IH]; [done|]. simpl.
  destruct (p c) eqn:Hc; [|done].
  destruct (stripped_char_neutral p c H1 H2 Hc) as [E1 E2].
  rewrite colon_profile_cons, profile_step_neutral; auto using colon_profile_nonempty.
Qed.

Lemma colon_profile_rstrip_by p s :
  p comma = false → p colon = false →
  colon_profile (rstrip_by p s) = colon_profile s.
Proof.
  intros H1 H2. induction s as [|c s IH]; [done|]. simpl.
  destruct (rstrip_by p s) as [|d r] eqn:Hr.
  - destruct (p c) eqn:Hc.
    + destruct (stripped_char_neutral p c H1 H2 Hc) as [E1 E2].
      rewrite colon_profile_cons, profile_step_neutral;
        auto using colon_profile_nonempty.
    + by rewrite (colon_profile_cons c EmptyString), (colon_profile_cons c s), IH.
  - by rewrite (colon_profile_cons c (String d r)), (colon_profile_cons c s), IH.
Qed.

Lemma colon_profile_strip_quotes s :
  colon_profile (strip_quotes s) = colon_profile s.
Proof.
  unfold strip_quotes, strip, strip_by.
  rewrite !colon_profile_rstrip_by, !colon_profile_lstrip_by by done.
  rewrite colon_profile_rstrip_by, colon_profile_lstrip_by by done. done.
Qed.

(** [dict] accepts the element of a tag exactly when the tag holds one
    colon. *)
Lemma tag_pair_ok tag :
  (∃ kv, tag_pair tag = Ok kv) ↔ count colon tag = 1%nat.
Proof.
  unfold tag_pair.
  pose proof (split_length colon (strip_space tag)) as Hlen.
  unfold strip_space in *. rewrite count_strip_by in Hlen by done.
  destruct (split colon (strip_by isspace tag)) as [|k [|v [|x l]]];
    simpl in Hlen; split.
  all: try (intros [kv ?]; done).
  all: try (intros ?; exfalso; lia).
  - intros _. lia.
  - intros _. eauto.
Qed.

Lemma tag_pair_raises tag e : tag_pair tag = Raise e → e = ValueError.
Proof.
  unfold tag_pair.
  destruct (split colon (strip_space tag)) as [|k [|v [|x l]]]; congruence.
Qed.

Lemma result_map_ok {A B} (f : A → result B) l :
  (∃ ys, result_map f l = Ok ys) ↔ Forall (λ x, ∃ y, f x = Ok y) l.
Proof.
  induction l as [|x l IH]; simpl.
  - split; [constructor | eauto].
  - split.
    + intros [ys H]. destruct (f x) eqn:Hx; [|done]. simpl in H.
      destruct (result_map f l) eqn:Hl; [|done].
      constructor; [eauto|]. apply IH. eauto.
    + intros H. inversion H as [|? ? [y Hy] Hl]; subst.
      apply IH in Hl as [ys Hys]. rewrite Hy, Hys. simpl. eauto.
Qed.

Lemma result_map_raises {A B} (f : A → result B) l e :
  result_map f l = Raise e → ∃ x, x ∈ l ∧ f x = Raise e.
Proof.
  induction l as [|x l IH]; simpl; [done|].
  destruct (f x) eqn:Hx; simpl.
  - destruct (result_map f l); simpl; [done|]. intros [= ->].
    destruct IH as (y & ? & ?); [done|]. exists y. split; [by right|done].
  - intros [= ->]. exists x. split; [by left|done].
Qed.

Lemma tag_pairs_ok s :
  (∃ pairs, tag_pairs s = Ok pairs) ↔ Forall (λ n, n = 1%nat) (colon_profile s).
Proof.
  unfold tag_pairs, colon_profile. rewrite result_map_ok, Forall_map.
  apply Forall_iff. intros tag. apply tag_pair_ok.
Qed.

Lemma key_value_count kv :
  is_field kv.1 → is_field kv.2 →
  count comma (key_value kv) = 0%nat ∧ count colon (key_value kv) = 1%nat.
Proof.
  intros [H1 H2] [H3 H4]. unfold key_value. rewrite !count_app. simpl.
  rewrite H1, H2, H3, H4. done.
Qed.

(** The specification's grammar, read off the colon profile. *)
Lemma key_value_pairs_profile s :
  key_value_pairs s ↔ Forall (λ n, n = 1%nat) (colon_profile s).
Proof.
  split.
  - intros (pairs & Hne & Hfields & ->).
    unfold colon_profile, comma_separated. rewrite split_sep_join.
    + rewrite Forall_map, Forall_map. eapply Forall_impl; [exact Hfields|].
      intros kv [H1 H2]. simpl. by apply key_value_count.
    + by destruct pairs.
    + rewrite Forall_map. eapply Forall_impl; [exact Hfields|].
      intros kv [H1 H2]. simpl. by apply key_value_count.
  - intros Hprof. unfold colon_profile in Hprof. rewrite Forall_map in Hprof.
    pose proof (split_no_sep comma s) as Hcomma.
    pose proof (sep_join_split comma s) as Hjoin.
    pose proof (split_nonempty comma s) as Hne.
    revert Hprof Hcomma Hjoin Hne. generalize (split comma s) as pieces.
    intros pieces Hprof Hcomma <- Hne.
    assert (∃ pairs, pieces = map key_value pairs
              ∧ Forall (λ kv, is_field kv.1 ∧ is_field kv.2) pairs)
      as (pairs & -> & Hfields).
    { clear Hne. induction pieces as [|piece pieces IH].
      - exists []. split; [done|constructor].
      - inversion Hprof as [|? ? Hone Hprof']; subst.
        inversion Hcomma as [|? ? Hnone Hcomma']; subst.
        destruct (IH Hprof' Hcomma') as (pairs & -> & Hfields).
        simpl in Hone.
        pose proof (split_length colon piece) as Hlen.
        pose proof (split_no_sep colon piece) as Hnocolon.
        pose proof (sep_join_split colon piece) as Hpiece.
        rewrite Hone in Hlen.
        destruct (split colon piece) as [|k [|v [|x l]]]; simpl in Hlen; try lia.
        symmetry in Hpiece. subst piece.
        exists ((k, v) :: pairs). split; [done|].
        constructor; [|done]. simpl.
        + inversion Hnocolon as [|? ? Hk Hrest]; subst.
          inversion Hrest as [|? ? Hv _]; subst.
          simpl in Hnone. rewrite count_app in Hnone. simpl in Hnone.
          unfold is_field. repeat split; try done; lia. }
    exists pairs. split; [|done]. by destruct pairs.
Qed.

(** Parsing succeeds exactly on the specification's grammar. *)
Lemma classify_ok_iff content :
  (∃ t, classify content = Ok t) ↔ key_value_pairs content.
Proof.
  rewrite key_value_pairs_profile, <- colon_profile_strip_quotes, <- tag_pairs_ok.
  unfold classify. split.
  - intros [t H]. destruct (tag_pairs (strip_quotes content)); [eauto|done].
  - intros [pairs ->]. simpl. eauto.
Qed.

Lemma classify_raises content e : classify content = Raise e → e = ValueError.
Proof.
  unfold classify, tag_pairs.
  destruct (result_map tag_pair _) eqn:H; simpl; [done|]. intros [= ->].
  apply result_map_raises in H as (tag & _ & H). by apply tag_pair_raises in H.
Qed.

End Classification.

(** ** The tags of a classification *)

Section Tags.

Implicit Types (pairs : list (string * string)) (d : gmap string string).

Lemma foldl_insert_absent pairs d key :
  key ∉ pairs.*1 →
  foldl (λ d kv, <[kv.1 := kv.2]> d) d pairs !! key = d !! key.
Proof.
  revert d. induction pairs as [|[k v] pairs IH]; intros d Hnot; [done|].
  simpl in *. apply not_elem_of_cons in Hnot as [Hne Hnot].
  rewrite IH by done. by rewrite lookup_insert_ne.
Qed.

Lemma dict_absent pairs key : key ∉ pairs.*1 → dict pairs !! key = None.
Proof. intros H. unfold dict. by rewrite foldl_insert_absent. Qed.

Lemma foldl_insert_filter (keys : list string) pairs d d' key :
  key ∈ keys → d !! key = d' !! key →
  foldl (λ d kv, <[kv.1 := kv.2]> d) d (filter (λ kv, kv.1 ∈ keys) pairs) !! key
  = foldl (λ d kv, <[kv.1 := kv.2]> d) d' pairs !! key.
Proof.
  intros HP. revert d d'. induction pairs as [|[k v] pairs IH]; intros d d' Hd; [done|].
  rewrite filter_cons. simpl. destruct (decide (k ∈ keys)) as [Hk|Hk]; simpl.
  - apply IH. destruct (decide (k = key)) as [->|Hne].
    + by rewrite !lookup_insert_eq.
    + by rewrite !lookup_insert_ne.
  - apply IH. rewrite lookup_insert_ne; [done|]. by intros ->.
Qed.

Lemma tag_is_yes_ext d d' key fallback :
  d !! key = d' !! key → tag_is_yes d key fallback = tag_is_yes d' key fallback.
Proof. unfold tag_is_yes. by intros ->. Qed.

Lemma tag_is_yes_absent d key fallback :
  d !! key = None →
  tag_is_yes d key fallback = bool_decide (PyStr.strip_space fallback = "YES").
Proof. unfold tag_is_yes. by intros ->. Qed.

(** Only the five recognized keys reach the tags. *)
Lemma query_tags_recognized pairs :
  query_tags (dict (filter (λ kv, kv.1 ∈ recognized_keys) pairs))
  = query_tags (dict pairs).
Proof.
  unfold query_tags, dict.
  f_equal; apply tag_is_yes_ext; apply foldl_insert_filter;
    solve [done | unfold recognized_keys; set_solver].
Qed.

End Tags.

(** C2.  A classification output made of comma-separated KEY:VALUE pairs
    is parsed, and in the resulting tags every key that no pair carries
    takes its default: [needs_search], [needs_image] and [needs_video] are
    true, [content_violation] and [has_math] are false.  Pairs whose key
    is not one of the five recognized keys do not reach the tags: dropping
    them gives the same tags.  These are the tags [process_user_query]
    returns. *)
Theorem classification_defaults (content : string) :
  key_value_pairs content →
  ∃ pairs t,
    tag_pairs (strip_quotes content) = Ok pairs
    ∧ classify content = Ok t
    ∧ ("SEARCH_NEEDED" ∉ pairs.*1 → needs_search t = true)
    ∧ ("SEARCH_IMAGE" ∉ pairs.*1 → needs_image t = true)
    ∧ ("SEARCH_VIDEO" ∉ pairs.*1 → needs_video t = true)
    ∧ ("CONTENT_VIOLATION" ∉ pairs.*1 → content_violation t = false)
    ∧ ("MATH" ∉ pairs.*1 → has_math t = false)
    ∧ query_tags (dict (filter (λ kv, kv.1 ∈ recognized_keys) pairs)) = t
    ∧ ∀ w rewrite,
        classification_completion w = Ok content →
        search_completion w = Ok rewrite →
        outcome (process_user_query w)
        = Ok {| search_query := strip_quotes rewrite; tags := Some t |}.
Proof.
  intros Hshape.
  apply key_value_pairs_profile in Hshape.
  rewrite <- colon_profile_strip_quotes in Hshape.
  apply tag_pairs_ok in Hshape as [pairs Hpairs].
  exists pairs, (query_tags (dict pairs)).
  assert (classify content = Ok (query_tags (dict pairs))) as Hclassify.
  { unfold classify. by rewrite Hpairs. }
  repeat split; try done.
  1-5: intros Habsent; simpl; by rewrite tag_is_yes_absent by by apply dict_absent.
  - apply query_tags_recognized.
  - intros w rewrite Hc Hs. unfold process_user_query, gather2, perform, pure.
    rewrite Hc, Hs. unfold mbind, M_bind. simpl. by rewrite Hclassify.
Qed.

(** C2 at the output [SEARCH_IMAGE:NO,LANG:EN]: the four keys it leaves out
    take their defaults, and the pair [LANG:EN] is ignored. *)
Lemma classification_defaults_witness :
  ∃ pairs t,
    tag_pairs (strip_quotes "SEARCH_IMAGE:NO,LANG:EN") = Ok pairs
    ∧ classify "SEARCH_IMAGE:NO,LANG:EN" = Ok t
    ∧ ("SEARCH_NEEDED" ∉ pairs.*1 → needs_search t = true)
    ∧ ("SEARCH_IMAGE" ∉ pairs.*1 → needs_image t = true)
    ∧ ("SEARCH_VIDEO" ∉ pairs.*1 → needs_video t = true)
    ∧ ("CONTENT_VIOLATION" ∉ pairs.*1 → content_violation t = false)
    ∧ ("MATH" ∉ pairs.*1 → has_math t = false)
    ∧ query_tags (dict (filter (λ kv, kv.1 ∈ recognized_keys) pairs)) = t
    ∧ ∀ w rewrite,
        classification_completion w = Ok "SEARCH_IMAGE:NO,LANG:EN" →
        search_completion w = Ok rewrite →
        outcome (process_user_query w)
        = Ok {| search_query := strip_quotes rewrite; tags := Some t |}.
Proof.
  apply (classification_defaults "SEARCH_IMAGE:NO,LANG:EN").
  exists [("SEARCH_IMAGE", "NO"); ("LANG", "EN")].
  split; [done|]. split; [|reflexivity].
  repeat constructor.
Defined.

(** ** Coroutines and schedules *)

Section Schedules.

Context {A : Type}.
Implicit Types l : list A.

Lemma interleave_app l1 l2 : interleave l1 l2 (l1 ++ l2).
Proof.
  induction l1 as [|a l1 IH]; simpl.
  - induction l2; constructor; done.
  - by constructor.
Qed.

Lemma interleave_perm l1 l2 l : interleave l1 l2 l → l ≡ₚ l1 ++ l2.
Proof.
  induction 1 as [|a l1 l2 l _ IH|a l1 l2 l _ IH]; simpl; [done|by f_equiv|].
  rewrite IH. apply Permutation_middle.
Qed.

Lemma interleave_nil_l l2 l : interleave [] l2 l → l = l2.
Proof.
  revert l. induction l2 as [|a l2 IH]; intros l H; inversion H; subst; [done|].
  f_equal. by apply IH.
Qed.


Lemma interleave_omap {B} (f : A → option B) l1 l2 l :
  interleave l1 l2 l → interleave (omap f l1) (omap f l2) (omap f l).
Proof.
  induction 1 as [|a l1 l2 l _ IH|a l1 l2 l _ IH]; simpl; [constructor| |];
    destruct (f a); simpl; try done; by constructor.
Qed.

End Schedules.

Lemma schedule_sequential t : schedule t (sequential t).
Proof.
  induction t; simpl; try by constructor.
  eapply schedule_par; eauto using interleave_app.
Qed.

Lemma schedule_perm t l : schedule t l → l ≡ₚ sequential t.
Proof.
  induction 1 as [| |t1 t2 l1 l2 _ IH1 _ IH2|t1 t2 l1 l2 l _ IH1 _ IH2 Hl]; simpl; try done.
  - by rewrite IH1, IH2.
  - rewrite (interleave_perm _ _ _ Hl). by rewrite IH1, IH2.
Qed.

Lemma schedule_elem_of t l a : schedule t l → a ∈ l ↔ a ∈ sequential t.
Proof. intros H. by rewrite (schedule_perm _ _ H). Qed.

Lemma schedule_Forall (P : action → Prop) t l :
  schedule t l → Forall P (sequential t) → Forall P l.
Proof. intros H. by rewrite (schedule_perm _ _ H). Qed.

Lemma schedule_seq_inv t1 t2 l :
  schedule (Seq t1 t2) l → ∃ l1 l2, l = l1 ++ l2 ∧ schedule t1 l1 ∧ schedule t2 l2.
Proof. inversion 1; subst; eauto. Qed.

Lemma schedule_act_inv a l : schedule (Act a) l → l = [a].
Proof. by inversion 1. Qed.

Lemma schedule_nop_inv l : schedule Nop l → l = [].
Proof. by inversion 1. Qed.

Lemma schedule_par_inv t1 t2 l :
  schedule (Par t1 t2) l →
  ∃ l1 l2, schedule t1 l1 ∧ schedule t2 l2 ∧ interleave l1 l2 l.
Proof. inversion 1; subst; eauto. Qed.

Lemma bind_ok {A B} (m : M A) (f : A → M B) a :
  outcome m = Ok a →
  m ≫= f = Run (Seq (trace_of m) (trace_of (f a))) (outcome (f a)).
Proof. unfold mbind, M_bind. by intros ->. Qed.

Lemma bind_raise {A B} (m : M A) (f : A → M B) e :
  outcome m = Raise e → m ≫= f = Run (trace_of m) (Raise e).
Proof. unfold mbind, M_bind. by intros ->. Qed.

Lemma perform_bind_ok {A B} (a : action) (r : result A) (f : A → M B) x :
  r = Ok x →
  perform a r ≫= f = Run (Seq (Act a) (trace_of (f x))) (outcome (f x)).
Proof. intros ->. done. Qed.

Lemma bind_ok_inv {A B} (m : M A) (f : A → M B) b :
  outcome (m ≫= f) = Ok b →
  ∃ a, outcome m = Ok a ∧ outcome (f a) = Ok b
       ∧ trace_of (m ≫= f) = Seq (trace_of m) (trace_of (f a)).
Proof.
  destruct (outcome m) as [a|e] eqn:Hm.
  - rewrite (bind_ok _ _ _ Hm). simpl. eauto.
  - by rewrite (bind_raise _ _ _ Hm).
Qed.

Lemma gather2_ok_inv {A B} (m1 : M A) (m2 : M B) r :
  outcome (gather2 m1 m2) = Ok r → outcome m1 = Ok r.1 ∧ outcome m2 = Ok r.2.
Proof.
  unfold gather2. simpl. destruct (outcome m1), (outcome m2); try done.
  by intros [= <-].
Qed.

Lemma gather3_ok_inv {A B C} (m1 : M A) (m2 : M B) (m3 : M C) r :
  outcome (gather3 m1 m2 m3) = Ok r →
  outcome m1 = Ok r.1.1 ∧ outcome m2 = Ok r.1.2 ∧ outcome m3 = Ok r.2.
Proof.
  unfold gather3. simpl. destruct (outcome m1), (outcome m2), (outcome m3); try done.
  by intros [= <-].
Qed.


Lemma gather_sequential {A} (tasks : list (M A)) :
  sequential (trace_of (gather tasks))
  = concat (map (λ m, sequential (trace_of m)) tasks).
Proof. induction tasks as [|m tasks IH]; simpl; [done|]. by rewrite IH. Qed.

(** ** The page fetcher *)

Section PageFetcher.

Variable w : World.

Lemma fetch_page_outcome i u :
  outcome (fetch_page w i u) =
    match session_get w i u with
    | Ok text => Ok (Some text)
    | Raise e => if is_Exception e then Ok None else Raise e
    end.
Proof.
  unfold fetch_page, try_except, perform, mbind, M_bind. simpl.
  destruct (session_get w i u) as [text|e]; simpl; [done|].
  by destruct (is_Exception e).
Qed.

Lemma fetch_page_sequential i u :
  sequential (trace_of (fetch_page w i u)) =
    SessionGet u ::
    match session_get w i u with
    | Ok _ => []
    | Raise e => if is_Exception e then [LogException e] else []
    end.
Proof.
  unfold fetch_page, try_except, perform, mbind, M_bind. simpl.
  destruct (session_get w i u) as [text|e]; simpl; [done|].
  by destruct (is_Exception e).
Qed.

Lemma fetch_web_pages_trace results :
  sequential (trace_of (fetch_web_pages w results))
  = concat (imap (λ i result, sequential (trace_of (fetch_page w i (url result)))) results).
Proof.
  unfold fetch_web_pages.
  set (tasks := imap _ results).
  assert (sequential (trace_of (gather tasks))
          = concat (imap (λ i result,
              sequential (trace_of (fetch_page w i (url result)))) results)) as <-.
  { rewrite gather_sequential. unfold tasks. f_equal.
    rewrite fmap_imap. done. }
  unfold mbind, M_bind. destruct (outcome (gather tasks)); simpl; [|done].
  by rewrite app_nil_r.
Qed.

Lemma fetched_urls_fetch_page i u :
  fetched_urls (sequential (trace_of (fetch_page w i u))) = [u].
Proof.
  rewrite fetch_page_sequential. simpl.
  destruct (session_get w i u) as [|e]; [done|]. by destruct (is_Exception e).
Qed.

Lemma omap_concat {A B} (f : A → option B) (ls : list (list A)) :
  omap f (concat ls) = concat (map (omap f) ls).
Proof. induction ls as [|l ls IH]; simpl; [done|]. by rewrite omap_app, IH. Qed.

(** One request per result, whatever the outcomes. *)
Lemma fetch_web_pages_urls results :
  fetched_urls (sequential (trace_of (fetch_web_pages w results))) = map url results.
Proof.
  rewrite fetch_web_pages_trace. unfold fetched_urls at 1. rewrite omap_concat.
  rewrite fmap_imap.
  transitivity (concat (imap (λ (i : nat) result, [url result]) results)).
  - f_equal. apply imap_ext. intros i r _. simpl. apply fetched_urls_fetch_page.
  - clear. generalize 0%nat as k. intros _.
    induction results as [|r results IH]; [done|].
    rewrite imap_cons. simpl. f_equal. rewrite <- IH. f_equal.
Qed.

Lemma fetch_web_pages_alphabet results :
  Forall fetch_alphabet (sequential (trace_of (fetch_web_pages w results))).
Proof.
  rewrite fetch_web_pages_trace. apply Forall_concat, Forall_forall.
  intros l [i [r [-> _]]]%elem_of_lookup_imap.
  rewrite fetch_page_sequential. constructor; [done|].
  destruct (session_get w i (url r)) as [|e]; [constructor|].
  destruct (is_Exception e); repeat constructor.
Qed.

End PageFetcher.


(** ** The answer synthesizer *)

Lemma schedule_par_free t l : par_free t = true → schedule t l → l = sequential t.
Proof.
  intros Hfree Hs. induction Hs as [| |t1 t2 l1 l2 _ IH1 _ IH2|]; simpl in *; try done.
  apply andb_prop in Hfree as [H1 H2]. by rewrite IH1, IH2.
Qed.

Lemma bind_par_free {A B} (m : M A) (f : A → M B) :
  par_free (trace_of m) = true → (∀ a, par_free (trace_of (f a)) = true) →
  par_free (trace_of (m ≫= f)) = true.
Proof.
  intros Hm Hf. unfold mbind, M_bind. destruct (outcome m); simpl; [|done].
  by rewrite Hm, Hf.
Qed.

Section AnswerSynthesizer.

Variable w : World.

Lemma consume_par_free chunks err parts :
  par_free (trace_of (consume w chunks err parts)) = true.
Proof.
  revert parts. induction chunks as [|delta chunks IH]; intros parts; cbn [consume].
  - by destruct err.
  - apply bind_par_free; [done|]. intros _.
    destruct (PyStr.truthy delta); [|done].
    apply bind_par_free; [done|]. intros _. apply IH.
Qed.

Lemma gen_answer_par_free web_pages :
  par_free (trace_of (gen_answer w web_pages)) = true.
Proof.
  unfold gen_answer. apply bind_par_free; [done|]. intros response.
  apply bind_par_free; [apply consume_par_free|done].
Qed.

Lemma fragments_cons delta chunks :
  fragments (delta :: chunks)
  = (if PyStr.truthy delta then [default EmptyString delta] else []) ++ fragments chunks.
Proof. unfold fragments. simpl. by destruct delta as [[|c s]|]. Qed.


(** The loop, read back from a normal return. *)
Lemma consume_ok_inv chunks err parts final_answer_parts :
  outcome (consume w chunks err parts) = Ok final_answer_parts →
  err = None
  ∧ final_answer_parts = parts ++ fragments chunks
  ∧ sequential (trace_of (consume w chunks err parts)) = stream_actions chunks.
Proof.
  revert parts. induction chunks as [|delta chunks IH]; intros parts.
  - simpl. destruct err; [done|]. simpl. intros [= <-]. by rewrite app_nil_r.
  - cbn [consume]. rewrite (perform_bind_ok _ _ _ () eq_refl). cbn [outcome trace_of].
    rewrite fragments_cons. unfold stream_actions. cbn [map mjoin list_join].
    destruct (PyStr.truthy delta).
    + intros (u & Hu & Hrest & Htrace)%bind_ok_inv.
      rewrite Htrace. cbn [sequential trace_of emit_answer emit perform].
      destruct (IH _ Hrest) as (-> & -> & ->).
      by rewrite <- app_assoc.
    + intros Hrest. cbn [sequential]. by destruct (IH _ Hrest) as (-> & -> & ->).
Qed.

Lemma gen_answer_ok_inv web_pages answer :
  outcome (gen_answer w web_pages) = Ok answer →
  ∃ chunks,
    answer_completion w (search_results_text web_pages)
    = Ok {| chunks := chunks; stream_error := None |}
    ∧ answer = PyStr.join (fragments chunks)
    ∧ sequential (trace_of (gen_answer w web_pages))
      = ChatCompletion (AnswerPrompt (search_results_text web_pages))
        :: stream_actions chunks.
Proof.
  unfold gen_answer.
  intros (response & Hresponse & Hrest & ->)%bind_ok_inv.
  apply bind_ok_inv in Hrest as (parts & Hparts & Hjoin & ->).
  apply consume_ok_inv in Hparts as (Herr & -> & Hseq).
  simpl in Hresponse. exists (chunks response). repeat split.
  - rewrite Hresponse. f_equal. destruct response; simpl in *; by subst.
  - simpl in Hjoin. congruence.
  - simpl. by rewrite Hseq, app_nil_r.
Qed.

Lemma answer_fragments_stream_actions chunks :
  answer_fragments (stream_actions chunks) = fragments chunks.
Proof.
  induction chunks as [|delta chunks IH]; [done|].
  rewrite fragments_cons, <- IH. unfold stream_actions. simpl.
  by destruct (PyStr.truthy delta).
Qed.



End AnswerSynthesizer.





(** ** The orchestrator *)

Section Orchestrator.

Variable w : World.

Lemma process_user_query_ok_inv enriched_query :
  outcome (process_user_query w) = Ok enriched_query →
  ∃ rewrite content t,
    search_completion w = Ok rewrite
    ∧ classification_completion w = Ok content
    ∧ classify content = Ok t
    ∧ enriched_query = {| search_query := strip_quotes rewrite; tags := Some t |}
    ∧ sequential (trace_of (process_user_query w))
      = [ChatCompletion SearchPrompt; ChatCompletion ClassificationPrompt].
Proof.
  unfold process_user_query.
  intros ([rewrite content] & Hgather & Hrest & ->)%bind_ok_inv.
  apply gather2_ok_inv in Hgather as [Hs Hc]. simpl in Hs, Hc.
  apply bind_ok_inv in Hrest as (t & Ht & Hq & ->). simpl in Ht, Hq.
  exists rewrite, content, t. repeat split; try done. by injection Hq.
Qed.

(** A run that reaches its end met a value at every step. *)
Lemma run_ok_inv user_message :
  outcome (run w user_message) = Ok () →
  ∃ rewrite content t search_results web_pages medium_results answer,
    search_completion w = Ok rewrite
    ∧ classification_completion w = Ok content
    ∧ classify content = Ok t
    ∧ searxng_search_results_json w (general_input (strip_quotes rewrite))
      = Ok search_results
    ∧ outcome (fetch_web_pages w (take 5 (general search_results))) = Ok web_pages
    ∧ outcome (search_mediums w (strip_quotes rewrite) (medium_categories (Some t)))
      = Ok medium_results
    ∧ outcome (gen_answer w web_pages) = Ok answer
    ∧ trace_of (run w user_message)
      = run_trace w user_message rewrite t search_results web_pages
          medium_results answer.
Proof.
  unfold run.
  intros ([] & _ & Hrest & ->)%bind_ok_inv.
  apply bind_ok_inv in Hrest as (enriched_query & Hquery & Hrest & ->).
  destruct (process_user_query_ok_inv _ Hquery) as (rewrite & content & t & ? & ? & ? & -> & _).
  cbn [search_query tags] in *.
  apply bind_ok_inv in Hrest as ([search_results []] & Hg1 & Hrest & ->).
  apply gather2_ok_inv in Hg1 as [Hsearch _]. simpl in Hsearch.
  apply bind_ok_inv in Hrest as ([[[] web_pages] medium_results] & Hg2 & Hrest & ->).
  apply gather3_ok_inv in Hg2 as (_ & Hfetch & Hmedia). simpl in Hfetch, Hmedia.
  apply bind_ok_inv in Hrest as ([answer []] & Hg3 & Hrest & ->).
  apply gather2_ok_inv in Hg3 as [Hanswer _]. simpl in Hanswer.
  exists rewrite, content, t, search_results, web_pages, medium_results, answer.
  repeat split; done.
Qed.

End Orchestrator.

Lemma search_mediums_sequential w query cats :
  sequential (trace_of (search_mediums w query cats))
  = match cats with
    | [] => []
    | _ :: _ => [SearxNG {| input_query := query; categories := cats |}]
    end.
Proof.
  destruct cats as [|c cats]; [done|]. unfold search_mediums, perform, mbind, M_bind.
  simpl. by destruct (searxng_search_results_json w _).
Qed.

Lemma search_mediums_ok_inv w query cats medium_results :
  outcome (search_mediums w query cats) = Ok medium_results →
  (cats = [] ∧ medium_results = None)
  ∨ (cats ≠ [] ∧ ∃ r, medium_results = Some r
       ∧ searxng_search_results_json w {| input_query := query; categories := cats |}
         = Ok r).
Proof.
  destruct cats as [|c cats].
  - intros [= <-]. by left.
  - unfold search_mediums. intros (r & Hr & Hret & _)%bind_ok_inv.
    right. split; [done|]. exists r. split; [|done]. by injection Hret.
Qed.

Lemma stream_actions_alphabet chunks a :
  a ∈ stream_actions chunks →
  (∃ delta, a = StreamChunk delta) ∨ (∃ text, a = Emit (EvAnswer text)).
Proof.
  unfold stream_actions. rewrite list_elem_of_join.
  intros (l & Ha & Hl). apply list_elem_of_fmap in Hl as (delta & -> & _).
  apply elem_of_cons in Ha as [->|Ha]; [eauto|].
  destruct (PyStr.truthy delta); [|by apply elem_of_nil in Ha].
  apply list_elem_of_singleton in Ha as ->. eauto.
Qed.

Lemma fetch_alphabet_inv a :
  fetch_alphabet a → (∃ u, a = SessionGet u) ∨ (∃ e, a = LogException e).
Proof. destruct a; simpl; try done; eauto. Qed.

Lemma fetch_alphabet_early a : fetch_alphabet a → early_alphabet a.
Proof. by destruct a. Qed.

Lemma omap_nil_elem_of {B} (f : action → option B) (l : list action) :
  (∀ a, a ∈ l → f a = None) → omap f l = [].
Proof.
  induction l as [|a l IH]; intros H; [done|]. simpl.
  rewrite (H a) by by left. apply IH. intros b Hb. apply H. by right.
Qed.

Lemma omap_fetch_nil {B} (f : action → option B) w results :
  (∀ u, f (SessionGet u) = None) → (∀ e, f (LogException e) = None) →
  omap f (sequential (trace_of (fetch_web_pages w results))) = [].
Proof.
  intros H1 H2. apply omap_nil_elem_of. intros a Ha.
  pose proof (fetch_web_pages_alphabet w results) as Halpha.
  rewrite Forall_forall in Halpha.
  by destruct (fetch_alphabet_inv a (Halpha a Ha)) as [[u ->]|[e ->]].
Qed.

Lemma omap_stream_nil {B} (f : action → option B) stream :
  (∀ delta, f (StreamChunk delta) = None) → (∀ text, f (Emit (EvAnswer text)) = None) →
  omap f (stream_actions stream) = [].
Proof.
  intros H1 H2. apply omap_nil_elem_of. intros a Ha.
  by destruct (stream_actions_alphabet _ _ Ha) as [[delta ->]|[text ->]].
Qed.

(** *** The schedules of a run that reaches its end *)

Section SuccessfulRun.

Variables (w : World) (user_message rewrite content : string) (t : QueryTags).
Variables (search_results : TopResults) (web_pages : list (option string)).
Variables (medium_results : option TopResults) (answer : string).

Hypothesis Hrewrite : search_completion w = Ok rewrite.
Hypothesis Hcontent : classification_completion w = Ok content.
Hypothesis Hclassify : classify content = Ok t.
Hypothesis Hmedia :
  outcome (search_mediums w (strip_quotes rewrite) (medium_categories (Some t)))
  = Ok medium_results.
Hypothesis Hanswer : outcome (gen_answer w web_pages) = Ok answer.

Set Default Proof Using "All".

Let query := strip_quotes rewrite.
Let the_record :=
  chat_history_record w (Some t) (general search_results) (or_empty medium_results)
    user_message answer.
Let the_trace :=
  run_trace w user_message rewrite t search_results web_pages medium_results answer.

Lemma process_user_query_sequential :
  sequential (trace_of (process_user_query w))
  = [ChatCompletion SearchPrompt; ChatCompletion ClassificationPrompt].
Proof.
  unfold process_user_query, gather2, perform, pure, mbind, M_bind. simpl.
  rewrite Hrewrite, Hcontent. simpl. by rewrite Hclassify.
Qed.

(** Where an action of a schedule can come from. *)
Lemma run_action_inv l a :
  schedule the_trace l → a ∈ l →
  a = LoadChatHistory
  ∨ (∃ p, a = ChatCompletion p)
  ∨ a = SearxNG (general_input query)
  ∨ (medium_categories (Some t) ≠ []
     ∧ a = SearxNG {| input_query := query; categories := medium_categories (Some t) |})
  ∨ a = Emit (EvMetadata {| metadata_has_math := has_math t |})
  ∨ a = Emit (EvWebResults (map trim_result (general search_results)))
  ∨ (∃ u, a = SessionGet u)
  ∨ (∃ e, a = LogException e)
  ∨ (∃ delta, a = StreamChunk delta)
  ∨ (∃ text, a = Emit (EvAnswer text))
  ∨ a = Emit (EvMediumResults (flatten_mediums (or_empty medium_results)))
  ∨ a = SaveChatHistory (thread_id w) the_record.
Proof.
  intros Hl. rewrite (schedule_elem_of _ _ a Hl).
  unfold the_trace, run_trace. cbn [sequential].
  rewrite process_user_query_sequential, search_mediums_sequential.
  destruct (gen_answer_ok_inv w web_pages answer Hanswer) as (stream & _ & _ & ->).
  intros H.
  repeat (apply elem_of_app in H as [H|H] || apply elem_of_cons in H as [H|H]).
  all: try (by apply elem_of_nil in H).
  all: try (subst a; by eauto 15).
  - pose proof (fetch_web_pages_alphabet w (take 5 (general search_results))) as Halpha.
    rewrite Forall_forall in Halpha.
    destruct (fetch_alphabet_inv a (Halpha a H)) as [[u ->]|[e ->]]; eauto 15.
  - destruct (medium_categories (Some t)) eqn:Hcats; [by apply elem_of_nil in H|].
    apply list_elem_of_singleton in H as ->. do 3 right. left. split; done.
  - destruct (stream_actions_alphabet _ _ H) as [[delta ->]|[text ->]]; eauto 15.
Qed.

(** The shape of every schedule: the early actions, among them the
    web-results event; then the answer, with the medium-results event
    somewhere in between; then the hand-over to the chat store. *)
Lemma run_schedule_inv l :
  schedule the_trace l →
  ∃ before la stream,
    l = before ++ la ++ [SaveChatHistory (thread_id w) the_record]
    ∧ Forall early_alphabet before
    ∧ Emit (EvWebResults (map trim_result (general search_results))) ∈ before
    ∧ answer_completion w (search_results_text web_pages)
      = Ok {| chunks := stream; stream_error := None |}
    ∧ answer = PyStr.join (fragments stream)
    ∧ interleave
        (ChatCompletion (AnswerPrompt (search_results_text web_pages))
         :: stream_actions stream)
        [Emit (EvMediumResults (flatten_mediums (or_empty medium_results)))] la.
Proof.
  unfold the_trace, run_trace.
  intros (l0 & l1 & -> & ->%schedule_act_inv & Hl)%schedule_seq_inv.
  apply schedule_seq_inv in Hl as (lq & l2 & -> & Hq & Hl).
  apply schedule_seq_inv in Hl as (ls & l3 & -> & Hs & Hl).
  apply schedule_seq_inv in Hl as (lf & l4 & -> & Hf & Hl).
  apply schedule_seq_inv in Hl as (la & l5 & -> & Ha & ->%schedule_act_inv).
  destruct (gen_answer_ok_inv w web_pages answer Hanswer) as (stream & Hstream & Hjoin & Hseq).
  exists ([LoadChatHistory] ++ lq ++ ls ++ lf), la, stream.
  split; [by rewrite <- !app_assoc|]. split; [|split; [|split; [|split]]]; try done.
  - repeat apply Forall_app_2.
    + by repeat constructor.
    + apply (schedule_Forall _ _ _ Hq). rewrite process_user_query_sequential.
      by repeat constructor.
    + apply (schedule_Forall _ _ _ Hs). by repeat constructor.
    + apply (schedule_Forall _ _ _ Hf). cbn [sequential].
      repeat apply Forall_app_2.
      * by repeat constructor.
      * eapply Forall_impl; [apply fetch_web_pages_alphabet|].
        apply fetch_alphabet_early.
      * rewrite search_mediums_sequential.
        destruct (medium_categories (Some t)); by repeat constructor.
  - rewrite !elem_of_app. do 3 right.
    apply (schedule_elem_of _ _ _ Hf). cbn [sequential].
    apply elem_of_app. left. by left.
  - apply schedule_par_inv in Ha as (lg & lm & Hg & ->%schedule_act_inv & Hla).
    apply schedule_par_free in Hg; [|apply gen_answer_par_free].
    by rewrite Hg, Hseq in Hla.
Qed.


(** The schedule in which every task runs to its end in turn. *)
Lemma run_sequential :
  ∃ stream,
    sequential the_trace
    = [LoadChatHistory; ChatCompletion SearchPrompt; ChatCompletion ClassificationPrompt;
       SearxNG (general_input query);
       Emit (EvMetadata {| metadata_has_math := has_math t |});
       Emit (EvWebResults (map trim_result (general search_results)))]
      ++ sequential (trace_of (fetch_web_pages w (take 5 (general search_results))))
      ++ sequential (trace_of (search_mediums w query (medium_categories (Some t))))
      ++ (ChatCompletion (AnswerPrompt (search_results_text web_pages))
          :: stream_actions stream)
      ++ [Emit (EvMediumResults (flatten_mediums (or_empty medium_results)));
          SaveChatHistory (thread_id w) the_record].
Proof.
  destruct (gen_answer_ok_inv w web_pages answer Hanswer) as (stream & _ & _ & Hseq).
  exists stream. unfold the_trace, run_trace. cbn [sequential].
  rewrite process_user_query_sequential, Hseq. simpl. by rewrite <- !app_assoc.
Qed.

(** The medium-results event is emitted once. *)
Lemma run_medium_payloads l :
  schedule the_trace l →
  medium_payloads l = [flatten_mediums (or_empty medium_results)].
Proof.
  intros Hl. apply Permutation_singleton_r.
  unfold medium_payloads. rewrite (schedule_perm _ _ Hl).
  destruct run_sequential as [stream ->].
  rewrite !omap_app, search_mediums_sequential.
  rewrite omap_fetch_nil by done. cbn [omap list_omap].
  rewrite omap_stream_nil by done.
  by destruct (medium_categories (Some t)).
Qed.

(** The search calls of a run. *)
Lemma run_search_inputs l :
  schedule the_trace l →
  search_inputs l ≡ₚ
    general_input query ::
    match medium_categories (Some t) with
    | [] => []
    | _ :: _ =>
        [{| input_query := query; categories := medium_categories (Some t) |}]
    end.
Proof.
  intros Hl. unfold search_inputs. rewrite (schedule_perm _ _ Hl).
  destruct run_sequential as [stream ->].
  rewrite !omap_app, search_mediums_sequential.
  rewrite omap_fetch_nil by done. cbn [omap list_omap].
  rewrite omap_stream_nil by done.
  by destruct (medium_categories (Some t)).
Qed.

(** The page requests of a run. *)
Lemma run_fetched_urls l :
  schedule the_trace l →
  fetched_urls l ≡ₚ map url (take 5 (general search_results)).
Proof.
  intros Hl. unfold fetched_urls at 1. rewrite (schedule_perm _ _ Hl).
  destruct run_sequential as [stream ->].
  rewrite !omap_app, search_mediums_sequential. cbn [omap list_omap].
  rewrite omap_stream_nil by done.
  fold (fetched_urls (sequential (trace_of
    (fetch_web_pages w (take 5 (general search_results)))))).
  rewrite fetch_web_pages_urls.
  destruct (medium_categories (Some t)); simpl; by rewrite app_nil_r.
Qed.


End SuccessfulRun.

(** ** The claims on whole runs *)

(** C4.  In every schedule of a run that reaches its end, the web-results
    event is emitted, and it comes strictly before every answer-fragment
    event, hence before the first one. *)
Theorem web_results_before_answer (w : World) (user_message : string) (l : list action) :
  outcome (run w user_message) = Ok () →
  schedule (trace_of (run w user_message)) l →
  ∃ i data,
    l !! i = Some (Emit (EvWebResults data))
    ∧ ∀ j text, l !! j = Some (Emit (EvAnswer text)) → i < j.
Proof.
  intros Hok Hl.
  destruct (run_ok_inv w user_message Hok)
    as (rewrite & content & t & sr & pages & mr & ans & Hr & Hc & Ht & _ & _ & Hm & Ha & Htrace).
  rewrite Htrace in Hl.
  destruct (run_schedule_inv w user_message rewrite content t sr pages mr ans
              Hr Hc Ht Hm Ha l Hl)
    as (before & la & stream & -> & Hearly & Hweb & _).
  apply list_elem_of_lookup in Hweb as [i Hi].
  exists i, (map trim_result (general sr)). split.
  - by apply lookup_app_l_Some.
  - intros j text Hj. pose proof (lookup_lt_Some _ _ _ Hi) as Hlt.
    destruct (decide (j < length before)) as [Hjlt|]; [|lia].
    rewrite lookup_app_l in Hj by done.
    rewrite Forall_forall in Hearly.
    by apply list_elem_of_lookup_2, Hearly in Hj.
Qed.

(** C4 on the sample world, for the schedule that runs every task to its
    end in turn. *)
Lemma web_results_before_answer_witness :
  ∃ i data,
    sequential (trace_of (run sample_world "How far is Mars?")) !! i
    = Some (Emit (EvWebResults data))
    ∧ ∀ j text,
        sequential (trace_of (run sample_world "How far is Mars?")) !! j
        = Some (Emit (EvAnswer text)) → i < j.
Proof.
  apply (web_results_before_answer sample_world "How far is Mars?").
  - reflexivity.
  - apply schedule_sequential.
Defined.



Lemma medium_categories_nil t :
  medium_categories (Some t) = [] ↔ needs_image t = false ∧ needs_video t = false.
Proof.
  unfold medium_categories. destruct (needs_image t), (needs_video t); simpl; split;
    try done; by intros [? ?].
Qed.





(** The cases of [run_action_inv], with every witness named [x] away. *)
Ltac action_cases H :=
  destruct H as [H|[[? H]|[H|[[_ H]|[H|[H|[[? H]|[[? H]|[[? H]|[[? H]|[H|H]]]]]]]]]]].

Lemma chat_history_record_metadata w t general_results medium_results user_message answer :
  metadata (chat_history_record w (Some t) general_results medium_results
              user_message answer)
  = {| metadata_has_math := has_math t |}.
Proof. unfold chat_history_record. simpl. by destruct (has_math t). Qed.

(** C9.  In every schedule of a run that reaches its end, the metadata
    event sent before the answer and the metadata of the record handed to
    the chat store carry the same [has_math]: the one of the classified
    tags.  No other metadata event and no other record occur. *)
Theorem metadata_event_matches_record (w : World) (user_message : string)
    (l : list action) :
  outcome (run w user_message) = Ok () →
  schedule (trace_of (run w user_message)) l →
  ∃ t record,
    tags_of_run w = Some t
    ∧ Emit (EvMetadata {| metadata_has_math := has_math t |}) ∈ l
    ∧ SaveChatHistory (thread_id w) record ∈ l
    ∧ metadata record = {| metadata_has_math := has_math t |}
    ∧ (∀ m, Emit (EvMetadata m) ∈ l → metadata_has_math m = has_math t)
    ∧ (∀ thread record',
         SaveChatHistory thread record' ∈ l →
         metadata_has_math (metadata record') = has_math t).
Proof.
  intros Hok Hl.
  destruct (run_ok_inv w user_message Hok)
    as (rewrite & content & t & sr & pages & mr & ans
        & Hr & Hc & Ht & Hs & _ & Hm & Ha & Htrace).
  rewrite Htrace in Hl.
  pose proof (run_action_inv w user_message rewrite content t sr pages mr ans
                Hr Hc Ht Hm Ha l) as Hinv.
  destruct (run_sequential w user_message rewrite content t sr pages mr ans
              Hr Hc Ht Hm Ha) as [stream Hseq].
  exists t, (chat_history_record w (Some t) (general sr) (or_empty mr) user_message ans).
  split; [|split; [|split; [|split; [|split]]]].
  - unfold tags_of_run. by rewrite Hc, Ht.
  - apply (schedule_elem_of _ _ _ Hl). rewrite Hseq.
    apply elem_of_app. left. do 4 right. left.
  - apply (schedule_elem_of _ _ _ Hl). rewrite Hseq.
    do 4 (apply elem_of_app; right). right. left.
  - apply chat_history_record_metadata.
  - intros m Hin. specialize (Hinv _ Hl Hin). action_cases Hinv; try discriminate Hinv.
    by injection Hinv as ->.
  - intros thread record' Hin. specialize (Hinv _ Hl Hin).
    action_cases Hinv; try discriminate Hinv.
    injection Hinv as _ ->. by rewrite chat_history_record_metadata.
Qed.

(** C9 on the sample world. *)
Lemma metadata_event_matches_record_witness :
  ∃ t record,
    tags_of_run sample_world = Some t
    ∧ Emit (EvMetadata {| metadata_has_math := has_math t |})
      ∈ sequential (trace_of (run sample_world "How far is Mars?"))
    ∧ SaveChatHistory (thread_id sample_world) record
      ∈ sequential (trace_of (run sample_world "How far is Mars?"))
    ∧ metadata record = {| metadata_has_math := has_math t |}
    ∧ (∀ m, Emit (EvMetadata m)
            ∈ sequential (trace_of (run sample_world "How far is Mars?")) →
            metadata_has_math m = has_math t)
    ∧ (∀ thread record',
         SaveChatHistory thread record'
         ∈ sequential (trace_of (run sample_world "How far is Mars?")) →
         metadata_has_math (metadata record') = has_math t).
Proof.
  apply (metadata_event_matches_record sample_world "How far is Mars?").
  - reflexivity.
  - apply schedule_sequential.
Defined.


(** The record of that run. *)
Example media_world_record :
  last (sequential (trace_of (run media_world "How far is Mars?")))
  = Some (SaveChatHistory "thread-1"
      {| id := "0b6f6f3e";
         chat_thread_id := "thread-1";
         mediums := [MediumImage "i1" "i1.png"; MediumImage "i2" "i2.png";
                     MediumVideo "v1"];
         web_results :=
           [{| web_url := "u1"; web_title := "Mars"; web_content := "The red planet" |};
            {| web_url := "u2"; web_title := "Mars"; web_content := "The red planet" |};
            {| web_url := "u3"; web_title := "Mars"; web_content := "The red planet" |}];
         query := "How far is Mars?";
         answer := "Mars is far.";
         metadata := {| metadata_has_math := true |} |}).
Proof. reflexivity. Qed.

(** C10.  In every schedule of a run that reaches its end, with N general
    search results: the web-results event (there is one payload only) and
    the record handed to the chat store both carry all N results, in
    search order, each reduced to its url, title and content; the page
    fetcher is asked for the pages of the first min(5, N) results only. *)
Theorem web_results_keep_every_hit (w : World) (user_message : string)
    (l : list action) :
  outcome (run w user_message) = Ok () →
  schedule (trace_of (run w user_message)) l →
  ∃ rewrite search_results record,
    search_completion w = Ok rewrite
    ∧ searxng_search_results_json w (general_input (strip_quotes rewrite))
      = Ok search_results
    ∧ Emit (EvWebResults (web_results record)) ∈ l
    ∧ (∀ data, Emit (EvWebResults data) ∈ l → data = web_results record)
    ∧ SaveChatHistory (thread_id w) record ∈ l
    ∧ length (web_results record) = length (general search_results)
    ∧ (∀ i res,
         general search_results !! i = Some res →
         web_results record !! i
         = Some {| web_url := url res; web_title := title res;
                   web_content := content res |})
    ∧ fetched_urls l ≡ₚ map url (take 5 (general search_results))
    ∧ length (fetched_urls l) = 5 `min` length (general search_results).
Proof.
  intros Hok Hl.
  destruct (run_ok_inv w user_message Hok)
    as (rewrite & content & t & sr & pages & mr & ans
        & Hr & Hc & Ht & Hs & _ & Hm & Ha & Htrace).
  rewrite Htrace in Hl.
  pose proof (run_action_inv w user_message rewrite content t sr pages mr ans
                Hr Hc Ht Hm Ha l) as Hinv.
  pose proof (run_fetched_urls w user_message rewrite content t sr pages mr ans
                Hr Hc Ht Hm Ha l Hl) as Hurls.
  destruct (run_sequential w user_message rewrite content t sr pages mr ans
              Hr Hc Ht Hm Ha) as [stream Hseq].
  exists rewrite, sr,
    (chat_history_record w (Some t) (general sr) (or_empty mr) user_message ans).
  cbn [chat_history_record web_results].
  split; [done|]. split; [done|]. split; [|split; [|split; [|split; [|split; [|split]]]]].
  - apply (schedule_elem_of _ _ _ Hl). rewrite Hseq.
    apply elem_of_app. left. do 5 right. left.
  - intros data Hin. specialize (Hinv _ Hl Hin). action_cases Hinv; try discriminate Hinv.
    by injection Hinv as ->.
  - apply (schedule_elem_of _ _ _ Hl). rewrite Hseq.
    do 4 (apply elem_of_app; right). right. left.
  - by rewrite length_map.
  - intros i res Hi. by rewrite list_lookup_fmap, Hi.
  - done.
  - rewrite Hurls, length_map, length_take. done.
Qed.

(** C10 on the sample world: seven hits, five page requests. *)
Lemma web_results_keep_every_hit_witness :
  ∃ rewrite search_results record,
    search_completion sample_world = Ok rewrite
    ∧ searxng_search_results_json sample_world (general_input (strip_quotes rewrite))
      = Ok search_results
    ∧ Emit (EvWebResults (web_results record))
      ∈ sequential (trace_of (run sample_world "How far is Mars?"))
    ∧ (∀ data, Emit (EvWebResults data)
               ∈ sequential (trace_of (run sample_world "How far is Mars?")) →
               data = web_results record)
    ∧ SaveChatHistory (thread_id sample_world) record
      ∈ sequential (trace_of (run sample_world "How far is Mars?"))
    ∧ length (web_results record) = length (general search_results)
    ∧ (∀ i res,
         general search_results !! i = Some res →
         web_results record !! i
         = Some {| web_url := url res; web_title := title res;
                   web_content := content res |})
    ∧ fetched_urls (sequential (trace_of (run sample_world "How far is Mars?")))
      ≡ₚ map url (take 5 (general search_results))
    ∧ length (fetched_urls (sequential (trace_of (run sample_world "How far is Mars?"))))
      = 5 `min` length (general search_results).
Proof.
  apply (web_results_keep_every_hit sample_world "How far is Mars?").
  - reflexivity.
  - apply schedule_sequential.
Defined.

(** ** What stripping removes *)

Section Stripping.

Import PyStr.

Lemma all_chars_app p s1 s2 :
  all_chars p (s1 +:+ s2) = all_chars p s1 && all_chars p s2.
Proof.
  induction s1 as [|c s1 IH]; [done|].
  change (p c && all_chars p (s1 +:+ s2) = p c && all_chars p s1 && all_chars p s2).
  rewrite IH. by destruct (p c).
Qed.

Lemma all_chars_impl (p q : ascii → bool) s :
  (∀ c, p c = true → q c = true) → all_chars p s = true → all_chars q s = true.
Proof.
  intros Hpq. induction s as [|c s IH]; [done|]. simpl.
  intros [Hc Hs]%andb_prop. by rewrite (Hpq c Hc), IH.
Qed.

Lemma lstrip_by_split p s :
  ∃ opening, s = opening +:+ lstrip_by p s ∧ all_chars p opening = true.
Proof.
  induction s as [|c s (opening & IH & Hall)]; [by exists EmptyString|]. simpl.
  destruct (p c) eqn:Hc.
  - exists (String c opening). split; [|simpl; by rewrite Hc].
    change (String c s = String c (opening +:+ lstrip_by p s)). by rewrite <- IH.
  - by exists EmptyString.
Qed.

Lemma rstrip_by_split p s :
  ∃ closing, s = rstrip_by p s +:+ closing ∧ all_chars p closing = true.
Proof.
  induction s as [|c s (closing & IH & Hall)]; [by exists EmptyString|]. simpl.
  destruct (rstrip_by p s) as [|d r] eqn:Hr.
  - change (s = closing) in IH. subst s. destruct (p c) eqn:Hc.
    + exists (String c closing). split; [done|]. simpl. by rewrite Hc.
    + by exists closing.
  - exists closing. split; [|done].
    change (String c s = String c (String d r +:+ closing)). by rewrite <- IH.
Qed.

(** Stripping takes characters of the given set off both ends, and
    nothing else. *)
Lemma strip_by_split p s :
  ∃ opening closing,
    s = opening +:+ strip_by p s +:+ closing
    ∧ all_chars p opening = true ∧ all_chars p closing = true.
Proof.
  destruct (lstrip_by_split p s) as (opening & Hs & Ho).
  destruct (rstrip_by_split p (lstrip_by p s)) as (closing & Hl & Hc).
  exists opening, closing. unfold strip_by. by rewrite <- Hl, <- Hs.
Qed.

Lemma dquote_is_quote c : mem c dquote_chars = true → is_quote c = true.
Proof. unfold is_quote. simpl. rewrite orb_false_r. by intros ->. Qed.

Lemma squote_is_quote c : mem c squote_chars = true → is_quote c = true.
Proof. unfold is_quote. simpl. rewrite orb_false_r. intros ->. apply orb_true_r. Qed.

Lemma strip_quotes_split s :
  ∃ opening closing,
    s = opening +:+ strip_quotes s +:+ closing
    ∧ all_chars is_quote opening = true ∧ all_chars is_quote closing = true.
Proof.
  unfold strip_quotes, strip.
  destruct (strip_by_split (λ c, mem c dquote_chars) s) as (o1 & c1 & Hs & Ho1 & Hc1).
  set (s1 := strip_by (λ c, mem c dquote_chars) s) in *.
  destruct (strip_by_split (λ c, mem c squote_chars) s1) as (o2 & c2 & Hs1 & Ho2 & Hc2).
  set (s2 := strip_by (λ c, mem c squote_chars) s1) in *.
  exists (o1 +:+ o2), (c2 +:+ c1). split; [|split].
  - rewrite Hs at 1. rewrite Hs1 at 1. by rewrite !append_assoc.
  - rewrite all_chars_app. apply andb_true_intro. split.
    + eapply all_chars_impl; [apply dquote_is_quote|exact Ho1].
    + eapply all_chars_impl; [apply squote_is_quote|exact Ho2].
  - rewrite all_chars_app. apply andb_true_intro. split.
    + eapply all_chars_impl; [apply squote_is_quote|exact Hc2].
    + eapply all_chars_impl; [apply dquote_is_quote|exact Hc1].
Qed.

End Stripping.

Section MoreStripping.

Import PyStr.

Lemma lstrip_by_head p s c r : lstrip_by p s = String c r → p c = false.
Proof.
  induction s as [|d s IH]; simpl; [done|].
  destruct (p d) eqn:Hd; [done|]. by intros [= <- _].
Qed.

Lemma rstrip_by_head p s c r :
  rstrip_by p s = String c r → ∃ s', s = String c s'.
Proof.
  destruct s as [|d s]; simpl; [done|].
  destruct (rstrip_by p s); [destruct (p d)|]; intros [= <- _]; eauto.
Qed.

Lemma append_singleton_inv (r : string) c d s :
  r +:+ String c EmptyString = String d s →
  (r = EmptyString ∧ c = d ∧ s = EmptyString)
  ∨ ∃ r', r = String d r' ∧ s = r' +:+ String c EmptyString.
Proof.
  destruct r as [|x r]; simpl.
  - intros [= -> <-]. by left.
  - intros [= -> <-]. right. eauto.
Qed.

Lemma rstrip_by_last p s r c :
  rstrip_by p s = r +:+ String c EmptyString → p c = false.
Proof.
  revert r. induction s as [|d s IH]; intros r; simpl.
  - by destruct r.
  - destruct (rstrip_by p s) as [|x t] eqn:Hr.
    + destruct (p d) eqn:Hd; [by destruct r|].
      intros H. symmetry in H.
      apply append_singleton_inv in H as [(_ & -> & _)|(r' & _ & H)]; [done|].
      by destruct r'.
    + intros H. symmetry in H.
      apply append_singleton_inv in H as [(_ & _ & [=])|(r' & _ & H)].
      by apply (IH r').
Qed.

Lemma strip_by_ends p s :
  (∀ c r, strip_by p s = String c r → p c = false)
  ∧ (∀ r c, strip_by p s = r +:+ String c EmptyString → p c = false).
Proof.
  unfold strip_by. split.
  - intros c r H. apply rstrip_by_head in H as [s' H]. by apply lstrip_by_head in H.
  - intros r c H. by apply rstrip_by_last in H.
Qed.

Lemma all_chars_lstrip_by p s : all_chars p s = true → lstrip_by p s = EmptyString.
Proof.
  induction s as [|c s IH]; simpl; [done|]. destruct (p c); [done|done].
Qed.

Lemma lstrip_by_app p s t :
  lstrip_by p (s +:+ t)
  = if all_chars p s then lstrip_by p t else lstrip_by p s +:+ t.
Proof.
  induction s as [|c s IH]; [done|].
  change (String c s +:+ t) with (String c (s +:+ t)). simpl.
  destruct (p c); [done|done].
Qed.

Lemma rstrip_by_snoc p s c :
  p c = true → rstrip_by p (s +:+ String c EmptyString) = rstrip_by p s.
Proof.
  intros Hc. induction s as [|d s IH].
  - simpl. by rewrite Hc.
  - change (String d s +:+ String c EmptyString)
      with (String d (s +:+ String c EmptyString)).
    simpl. by rewrite IH.
Qed.

(** Stripping is blind to one more stripped character at either end. *)
Lemma strip_by_wrapped p s c :
  p c = true → strip_by p (String c s +:+ String c EmptyString) = strip_by p s.
Proof.
  intros Hc. unfold strip_by.
  change (String c s +:+ String c EmptyString)
    with (String c (s +:+ String c EmptyString)).
  simpl. rewrite Hc, lstrip_by_app.
  destruct (all_chars p s) eqn:Hall.
  - simpl. rewrite Hc. by rewrite all_chars_lstrip_by.
  - by apply rstrip_by_snoc.
Qed.

End MoreStripping.
(** ** Stripping is what [stripped_of] says *)

Section StrippedOf.

Import PyStr.

Lemma mem_singleton c x : mem x (String c EmptyString) = Ascii.eqb c x.
Proof. simpl. rewrite orb_false_r. apply Ascii.eqb_sym. Qed.

Lemma all_chars_ext (p q : ascii → bool) s :
  (∀ c, p c = q c) → all_chars p s = all_chars q s.
Proof. intros H. induction s as [|c s IH]; [done|]. simpl. by rewrite H, IH. Qed.


Lemma all_chars_rstrip_by p s : all_chars p s = true → rstrip_by p s = EmptyString.
Proof.
  induction s as [|c s IH]; simpl; [done|].
  intros [Hc Hs]%andb_prop. by rewrite IH, Hc.
Qed.

Lemma rstrip_by_app_all p s closing :
  all_chars p closing = true → rstrip_by p (s +:+ closing) = rstrip_by p s.
Proof.
  intros Hall. induction s as [|d s IH].
  - simpl. by apply all_chars_rstrip_by.
  - change (String d s +:+ closing) with (String d (s +:+ closing)). simpl.
    by rewrite IH.
Qed.

Lemma last_char (s : string) :
  s = EmptyString ∨ ∃ start c, s = start +:+ String c EmptyString.
Proof.
  induction s as [|d s [->|(start & c & ->)]]; [by left|right..].
  - by exists EmptyString, d.
  - by exists (String d start), c.
Qed.

Lemma all_chars_last p start c :
  all_chars p (start +:+ String c EmptyString) = true → p c = true.
Proof. rewrite all_chars_app. simpl. by intros [_ [H _]%andb_prop]%andb_prop. Qed.

Lemma rstrip_by_id p q :
  (∀ start c, q = start +:+ String c EmptyString → p c = false) → rstrip_by p q = q.
Proof.
  intros Hlast. destruct (rstrip_by_split p q) as (closing & Hq & Hall).
  destruct (last_char closing) as [->|(start & c & ->)].
  - by rewrite append_nil_r in Hq.
  - pose proof (all_chars_last p start c Hall) as Hc.
    rewrite <- append_assoc in Hq. apply Hlast in Hq. congruence.
Qed.

(** What [stripped_of] describes is what [strip] computes, and nothing
    else. *)
Lemma stripped_of_strip c s q :
  stripped_of c s q → q = strip (String c EmptyString) s.
Proof.
  intros (opening & closing & -> & Ho & Hc & Hhead & Hlast).
  unfold strip, strip_by.
  set (p := λ x, mem x (String c EmptyString)).
  assert (∀ t, all_chars (Ascii.eqb c) t = all_chars p t) as Hp.
  { intros t. apply all_chars_ext. intros x. unfold p. by rewrite mem_singleton. }
  rewrite Hp in Ho, Hc.
  rewrite lstrip_by_app, Ho.
  destruct q as [|x q'].
  - simpl. by rewrite all_chars_lstrip_by.
  - assert (lstrip_by p (String x q' +:+ closing) = String x q' +:+ closing) as ->.
    { change (String x q' +:+ closing) with (String x (q' +:+ closing)). simpl.
      destruct (p x) eqn:Hx; [|done]. unfold p in Hx.
      rewrite mem_singleton in Hx. apply Ascii.eqb_eq in Hx as <-.
      by destruct (Hhead q'). }
    rewrite rstrip_by_app_all by done. symmetry. apply rstrip_by_id.
    intros start y Hy. destruct (p y) eqn:Hpy; [|done]. unfold p in Hpy.
    rewrite mem_singleton in Hpy. apply Ascii.eqb_eq in Hpy as <-.
    by destruct (Hlast start).
Qed.

Lemma stripped_of_unique c s q q' : stripped_of c s q → stripped_of c s q' → q = q'.
Proof. intros H H'. by rewrite (stripped_of_strip _ _ _ H), (stripped_of_strip _ _ _ H'). Qed.

End StrippedOf.



(** The searches of that run: both ask for the text between the quotes. *)
Example quoted_rewrite_searches :
  search_inputs (sequential (trace_of (run quoted_world "And Mars?")))
  = [{| input_query := "How far is Mars"; categories := [cat_general] |};
     {| input_query := "How far is Mars"; categories := [cat_images; cat_videos] |}].
Proof. reflexivity. Qed.


Lemma flatten_mediums_nil r : flatten_mediums r = [] ↔ images r = [] ∧ videos r = [].
Proof.
  unfold flatten_mediums. destruct (images r), (videos r); simpl; split; try done.
  all: by intros [? ?].
Qed.

(** C3, as the code has it.  In every schedule of a run that reaches its
    end there is one medium-results event.  When the tags ask neither
    for images nor for videos, the media search is skipped (the general
    search is the only search call) and the payload is the empty list.
    When they ask for either, the media search is the second search call
    and the payload is its images followed by its videos, flattened: it is
    empty exactly when that search found neither. *)
Theorem medium_results_follow_media_search (w : World) (user_message : string)
    (l : list action) :
  outcome (run w user_message) = Ok () →
  schedule (trace_of (run w user_message)) l →
  ∃ t rewrite payload,
    tags_of_run w = Some t
    ∧ search_completion w = Ok rewrite
    ∧ medium_payloads l = [payload]
    ∧ (needs_image t = false ∧ needs_video t = false →
       payload = [] ∧ search_inputs l = [general_input (strip_quotes rewrite)])
    ∧ (needs_image t = true ∨ needs_video t = true →
       ∃ r,
         searxng_search_results_json w
           {| input_query := strip_quotes rewrite;
              categories := medium_categories (Some t) |} = Ok r
         ∧ payload = flatten_mediums r
         ∧ (payload = [] ↔ images r = [] ∧ videos r = [])
         ∧ search_inputs l ≡ₚ
             [general_input (strip_quotes rewrite);
              {| input_query := strip_quotes rewrite;
                 categories := medium_categories (Some t) |}]).
Proof.
  intros Hok Hl.
  destruct (run_ok_inv w user_message Hok)
    as (rewrite & content & t & sr & pages & mr & ans
        & Hr & Hc & Ht & Hs & _ & Hm & Ha & Htrace).
  rewrite Htrace in Hl.
  pose proof (run_medium_payloads w user_message rewrite content t sr pages mr ans
                Hr Hc Ht Hm Ha l Hl) as Hpayload.
  pose proof (run_search_inputs w user_message rewrite content t sr pages mr ans
                Hr Hc Ht Hm Ha l Hl) as Hinputs.
  exists t, rewrite, (flatten_mediums (or_empty mr)).
  split; [unfold tags_of_run; by rewrite Hc, Ht|]. split; [done|]. split; [done|].
  apply search_mediums_ok_inv in Hm as [[Hnil ->]|(Hcons & r & -> & Hr')].
  - split.
    + intros _. split; [done|]. rewrite Hnil in Hinputs.
      by apply Permutation_singleton_r.
    + apply medium_categories_nil in Hnil as [-> ->]. by intros [|].
  - split.
    + intros Hnone%medium_categories_nil. done.
    + intros _. exists r. split; [done|]. split; [done|]. split.
      * apply flatten_mediums_nil.
      * by destruct (medium_categories (Some t)).
Qed.

(** C3 on the world whose classification asks for images. *)
Lemma medium_results_follow_media_search_witness :
  ∃ t rewrite payload,
    tags_of_run image_world = Some t
    ∧ search_completion image_world = Ok rewrite
    ∧ medium_payloads (sequential (trace_of (run image_world "How far is Mars?")))
      = [payload]
    ∧ (needs_image t = false ∧ needs_video t = false →
       payload = []
       ∧ search_inputs (sequential (trace_of (run image_world "How far is Mars?")))
         = [general_input (strip_quotes rewrite)])
    ∧ (needs_image t = true ∨ needs_video t = true →
       ∃ r,
         searxng_search_results_json image_world
           {| input_query := strip_quotes rewrite;
              categories := medium_categories (Some t) |} = Ok r
         ∧ payload = flatten_mediums r
         ∧ (payload = [] ↔ images r = [] ∧ videos r = [])
         ∧ search_inputs (sequential (trace_of (run image_world "How far is Mars?")))
           ≡ₚ [general_input (strip_quotes rewrite);
               {| input_query := strip_quotes rewrite;
                  categories := medium_categories (Some t) |}]).
Proof.
  apply (medium_results_follow_media_search image_world "How far is Mars?").
  - reflexivity.
  - apply schedule_sequential.
Defined.

(** C3 does not hold from right to left: the tags ask for images, the
    media search is made and finds nothing, and the payload is empty all
    the same. *)
Lemma medium_results_empty_though_images_needed :
  ¬ (∀ (w : World) (user_message : string) (l : list action) (t : QueryTags)
       (payload : list Medium),
       outcome (run w user_message) = Ok () →
       schedule (trace_of (run w user_message)) l →
       tags_of_run w = Some t →
       Emit (EvMediumResults payload) ∈ l →
       (payload = [] ↔ needs_image t = false ∧ needs_video t = false)).
Proof.
  intros H.
  specialize (H image_world "How far is Mars?"
                (sequential (trace_of (run image_world "How far is Mars?")))
                {| needs_search := true; needs_image := true; needs_video := false;
                   content_violation := false; has_math := false |}
                []
                eq_refl (schedule_sequential _) eq_refl).
  assert (Emit (EvMediumResults [])
          ∈ sequential (trace_of (run image_world "How far is Mars?"))) as Hin.
  { vm_compute. repeat first [left | right]. }
  destruct (H Hin) as [Himp _]. destruct (Himp eq_refl) as [Himage _].
  discriminate Himage.
Qed.

(** ** Malformed classification output *)

Lemma classify_malformed content :
  ¬ key_value_pairs content → classify content = Raise ValueError.
Proof.
  intros Hnot. destruct (classify content) as [t|e] eqn:Hc.
  - destruct Hnot. apply classify_ok_iff. eauto.
  - by rewrite (classify_raises _ _ Hc).
Qed.

(** C6.  When the classification output is not a comma-separated list of
    KEY:VALUE pairs, the run ends with an exception: the [ValueError] of
    the parse, unless an earlier step (loading the history, the rewrite
    request) has raised already.  Nothing but the loading of the history
    and the two completion requests has taken place: no event is emitted,
    no search is made, and no record reaches the chat store. *)
Theorem malformed_classification_aborts (w : World) (user_message content : string) :
  classification_completion w = Ok content →
  ¬ key_value_pairs content →
  ∃ e,
    outcome (run w user_message) = Raise e
    ∧ (load_chat_history w = Ok () → (∃ rewrite, search_completion w = Ok rewrite) →
       outcome (process_user_query w) = Raise ValueError ∧ e = ValueError)
    ∧ ∀ l, schedule (trace_of (run w user_message)) l →
        Forall (λ a, a = LoadChatHistory ∨ ∃ p, a = ChatCompletion p) l
        ∧ Forall (λ a, is_save a = false) l.
Proof.
  intros Hc Hnot. apply classify_malformed in Hnot.
  assert (∃ e, outcome (run w user_message) = Raise e
            ∧ (load_chat_history w = Ok () → (∃ rewrite, search_completion w = Ok rewrite) →
               outcome (process_user_query w) = Raise ValueError ∧ e = ValueError)
            ∧ Forall (λ a, a = LoadChatHistory ∨ ∃ p, a = ChatCompletion p)
                (sequential (trace_of (run w user_message)))) as (e & He & Hv & Hall).
  { unfold run, process_user_query, gather2, perform, pure, mbind, M_bind. simpl.
    rewrite Hc.
    destruct (load_chat_history w) as [[]|e0]; simpl.
    - destruct (search_completion w) as [rewrite|e1]; simpl.
      + rewrite Hnot. simpl. exists ValueError.
        split; [done|]. split; [done|].
        repeat (constructor; [by eauto|]). constructor.
      + exists e1. split; [done|]. split; [by intros _ [? ?]|].
        repeat (constructor; [by eauto|]). constructor.
    - exists e0. split; [done|]. split; [done|].
      repeat (constructor; [by eauto|]). constructor. }
  exists e. split; [done|]. split; [done|]. intros l Hl.
  apply (schedule_Forall _ _ _ Hl) in Hall. split; [done|].
  eapply Forall_impl; [exact Hall|]. by intros a [->|[p ->]].
Qed.

(** C6 on the world whose classification model answers in prose. *)
Lemma malformed_classification_aborts_witness :
  ∃ e,
    outcome (run prose_world "How far is Mars?") = Raise e
    ∧ (load_chat_history prose_world = Ok () →
       (∃ rewrite, search_completion prose_world = Ok rewrite) →
       outcome (process_user_query prose_world) = Raise ValueError ∧ e = ValueError)
    ∧ ∀ l, schedule (trace_of (run prose_world "How far is Mars?")) l →
        Forall (λ a, a = LoadChatHistory ∨ ∃ p, a = ChatCompletion p) l
        ∧ Forall (λ a, is_save a = false) l.
Proof.
  apply (malformed_classification_aborts prose_world "How far is Mars?" "A search is needed").
  - reflexivity.
  - intros Hshape%key_value_pairs_profile. vm_compute in Hshape.
    inversion Hshape as [|? ? Hone _]. discriminate Hone.
Defined.

(** * Further properties of the agent *)

(** ** The page fetcher, whatever the outcomes *)

Lemma gather_ok_inv {A} (tasks : list (M A)) (values : list A) :
  outcome (gather tasks) = Ok values →
  Forall2 (λ m a, outcome m = Ok a) tasks values.
Proof.
  revert values. induction tasks as [|m tasks IH]; intros values; simpl.
  - intros [= <-]. constructor.
  - destruct (outcome m) as [a|e] eqn:Hm; [|done].
    destruct (outcome (gather tasks)) as [l|e]; [|done].
    intros [= <-]. constructor; [done|]. by apply IH.
Qed.

Lemma gather_raise_inv {A} (tasks : list (M A)) e :
  outcome (gather tasks) = Raise e → ∃ m, m ∈ tasks ∧ outcome m = Raise e.
Proof.
  induction tasks as [|m tasks IH]; simpl; [done|].
  destruct (outcome m) as [a|e'] eqn:Hm.
  - destruct (outcome (gather tasks)) as [l|e']; [done|]. intros [= ->].
    destruct IH as (m' & Hin & Hm'); [done|]. exists m'. split; [by right|done].
  - intros [= ->]. exists m. split; [by left|done].
Qed.

Lemma fetch_web_pages_outcome_inv w results :
  match outcome (fetch_web_pages w results) with
  | Ok pages =>
      pages = map (λ page, trafilatura_extract w (default EmptyString page))
                (imap (fetched w) results)
      ∧ ∀ i result e,
          results !! i = Some result →
          session_get w i (url result) = Raise e → is_Exception e = true
  | Raise e =>
      is_Exception e = false
      ∧ ∃ i result, results !! i = Some result ∧ session_get w i (url result) = Raise e
  end.
Proof.
  unfold fetch_web_pages.
  set (tasks := imap (λ i result, fetch_page w i (url result)) results).
  destruct (outcome (gather tasks)) as [values|e] eqn:Hg.
  - rewrite (bind_ok _ _ _ Hg). simpl.
    apply gather_ok_inv in Hg.
    assert (∀ i result, results !! i = Some result →
              outcome (fetch_page w i (url result)) = Ok (fetched w i result)
              ∧ values !! i = Some (fetched w i result)) as Hat.
    { intros i result Hi.
      assert (tasks !! i = Some (fetch_page w i (url result))) as Ht.
      { unfold tasks. by rewrite list_lookup_imap, Hi. }
      destruct (Forall2_lookup_l _ _ _ _ _ Hg Ht) as (v & Hv & Hout).
      rewrite fetch_page_outcome in Hout |- *. unfold fetched.
      destruct (session_get w i (url result)) as [text|e]; [by injection Hout as <-|].
      destruct (is_Exception e); [by injection Hout as <-|done]. }
    split.
    + f_equal. apply list_eq. intros i.
      rewrite list_lookup_imap.
      destruct (results !! i) as [result|] eqn:Hi; simpl.
      * by destruct (Hat i result Hi) as [_ ->].
      * apply lookup_ge_None. rewrite <- (Forall2_length _ _ _ Hg).
        unfold tasks. rewrite length_imap. by apply lookup_ge_None.
    + intros i result e Hi He. destruct (Hat i result Hi) as [Hout _].
      rewrite fetch_page_outcome, He in Hout. by destruct (is_Exception e).
  - rewrite (bind_raise _ _ _ Hg). simpl.
    apply gather_raise_inv in Hg as (m & Hin & Hm).
    unfold tasks in Hin. apply elem_of_lookup_imap in Hin as (i & result & -> & Hi).
    rewrite fetch_page_outcome in Hm.
    destruct (session_get w i (url result)) as [text|e'] eqn:Hget; [done|].
    destruct (is_Exception e') eqn:He'; [done|]. injection Hm as ->. eauto.
Qed.

(** X1.  [fetch_web_pages] raises exactly when some retrieval raises an
    exception that [except Exception] does not catch (a cancellation):
    the exception it raises is then such an exception of one of its
    retrievals.  Otherwise it returns. *)
Theorem fetch_web_pages_raises_iff_uncaught (w : World) (results : list GeneralResult) :
  (∃ e, outcome (fetch_web_pages w results) = Raise e)
  ↔ (∃ i result e,
       results !! i = Some result
       ∧ session_get w i (url result) = Raise e ∧ is_Exception e = false).
Proof.
  pose proof (fetch_web_pages_outcome_inv w results) as Hinv.
  destruct (outcome (fetch_web_pages w results)) as [pages|e]; split.
  - by intros [e ?].
  - intros (i & result & e & Hi & He & Hno). destruct Hinv as [_ Hall].
    rewrite (Hall i result e Hi He) in Hno. done.
  - intros _. destruct Hinv as (Hno & i & result & Hi & He). eauto 10.
  - eauto.
Qed.

(** X2.  Whenever [fetch_web_pages] returns, it returns one document per
    result, in input order: the extractor's output on the page retrieved
    for that result, or on the empty page when the retrieval failed (a
    page retrieved empty and a failed retrieval give the same document). *)
Theorem fetch_web_pages_returns_extractions (w : World) (results : list GeneralResult)
    (pages : list (option string)) :
  outcome (fetch_web_pages w results) = Ok pages →
  length pages = length results
  ∧ ∀ i result,
      results !! i = Some result →
      pages !! i = Some (trafilatura_extract w
                           match session_get w i (url result) with
                           | Ok html => html
                           | Raise _ => EmptyString
                           end).
Proof.
  intros Hok. pose proof (fetch_web_pages_outcome_inv w results) as Hinv.
  rewrite Hok in Hinv. destruct Hinv as [-> _]. split.
  - by rewrite length_map, length_imap.
  - intros i result Hi. rewrite list_lookup_fmap, list_lookup_imap, Hi. simpl.
    unfold fetched. by destruct (session_get w i (url result)).
Qed.

(** X2 on the sample world, where the second retrieval times out. *)
Lemma fetch_web_pages_returns_extractions_witness :
  length [Some "<p>a</p>"; None; Some "<p>c</p>"] = length sample_results
  ∧ ∀ i result,
      sample_results !! i = Some result →
      [Some "<p>a</p>"; None; Some "<p>c</p>"] !! i
      = Some (trafilatura_extract sample_world
                match session_get sample_world i (url result) with
                | Ok html => html
                | Raise _ => EmptyString
                end).
Proof.
  apply (fetch_web_pages_returns_extractions sample_world sample_results). reflexivity.
Defined.

(** X1 on the world where the third retrieval is cancelled. *)
Lemma fetch_web_pages_cancelled_sample :
  outcome (fetch_web_pages cancelled_world sample_results) = Raise CancelledError.
Proof. reflexivity. Qed.

Lemma logged_exceptions_fetch_page w i u :
  logged_exceptions (sequential (trace_of (fetch_page w i u)))
  = match session_get w i u with
    | Ok _ => []
    | Raise e => if is_Exception e then [e] else []
    end.
Proof.
  rewrite fetch_page_sequential. simpl.
  destruct (session_get w i u) as [|e]; [done|]. by destruct (is_Exception e).
Qed.

(** X3.  Whatever the retrievals do and however the event loop
    interleaves the tasks, [fetch_web_pages] asks once for the page of
    every result, and hands to the logger the exceptions it catches, each
    once, and nothing else. *)
Theorem fetch_web_pages_requests_and_logs (w : World) (results : list GeneralResult)
    (l : list action) :
  schedule (trace_of (fetch_web_pages w results)) l →
  fetched_urls l ≡ₚ map url results
  ∧ logged_exceptions l ≡ₚ caught_failures w results
  ∧ length l = length results + length (caught_failures w results).
Proof.
  intros Hl. pose proof (schedule_perm _ _ Hl) as Hperm.
  assert (logged_exceptions (sequential (trace_of (fetch_web_pages w results)))
          = caught_failures w results) as Hlog.
  { rewrite fetch_web_pages_trace. unfold logged_exceptions at 1, caught_failures.
    rewrite omap_concat, fmap_imap. f_equal. apply imap_ext. intros i r _. simpl.
    apply logged_exceptions_fetch_page. }
  split; [|split].
  - unfold fetched_urls at 1. rewrite Hperm. apply reflexive_eq, fetch_web_pages_urls.
  - unfold logged_exceptions at 1. rewrite Hperm. by apply reflexive_eq.
  - rewrite Hperm, fetch_web_pages_trace. unfold caught_failures. clear.
    assert (∀ (f : nat → nat) , length (concat (imap (λ i result,
              sequential (trace_of (fetch_page w (f i) (url result)))) results))
            = length results + length (concat (imap (λ i result,
                match session_get w (f i) (url result) with
                | Ok _ => []
                | Raise e => if is_Exception e then [e] else []
                end) results))) as H.
    { induction results as [|r results IH]; intros f; [done|].
      rewrite !imap_cons. simpl. rewrite !length_app.
      specialize (IH (f ∘ S)). simpl in IH. unfold compose in *. rewrite IH.
      rewrite fetch_page_sequential. simpl.
      destruct (session_get w (f 0) (url r)) as [|e]; simpl; [lia|].
      destruct (is_Exception e); simpl; lia. }
    apply (H (λ i, i)).
Qed.

(** X3 on the sample world, for the schedule that runs the tasks in turn. *)
Lemma fetch_web_pages_requests_and_logs_witness :
  fetched_urls (sequential (trace_of (fetch_web_pages sample_world sample_results)))
  ≡ₚ map url sample_results
  ∧ logged_exceptions (sequential (trace_of (fetch_web_pages sample_world sample_results)))
    ≡ₚ caught_failures sample_world sample_results
  ∧ length (sequential (trace_of (fetch_web_pages sample_world sample_results)))
    = length sample_results + length (caught_failures sample_world sample_results).
Proof.
  apply (fetch_web_pages_requests_and_logs sample_world sample_results).
  apply schedule_sequential.
Defined.

(** ** The answer synthesizer: grounding text and failures *)



(** The loop over the chunks whose emissions go through, then the rest. *)
Lemma consume_app w before rest err parts :
  (∀ k earlier,
     fragments before !! k = Some earlier →
     emitter_emit w (length parts + k) (EvAnswer earlier) = Ok ()) →
  outcome (consume w (before ++ rest) err parts)
  = outcome (consume w rest err (parts ++ fragments before))
  ∧ sequential (trace_of (consume w (before ++ rest) err parts))
    = stream_actions before
      ++ sequential (trace_of (consume w rest err (parts ++ fragments before))).
Proof.
  revert parts. induction before as [|delta before IH]; intros parts Hemit.
  - simpl. by rewrite app_nil_r.
  - change ((delta :: before) ++ rest) with (delta :: (before ++ rest)).
    cbn [consume]. rewrite (perform_bind_ok _ _ _ () eq_refl). cbn [outcome trace_of].
    rewrite fragments_cons in Hemit |- *.
    change (stream_actions (delta :: before))
      with ((StreamChunk delta ::
             if PyStr.truthy delta
             then [Emit (EvAnswer (default EmptyString delta))] else [])
            ++ stream_actions before).
    destruct (PyStr.truthy delta).
    + unfold emit_answer, emit.
      assert (emitter_emit w (length parts) (EvAnswer (default EmptyString delta)) = Ok ())
        as Hfirst.
      { specialize (Hemit 0%nat (default EmptyString delta) eq_refl).
        by rewrite Nat.add_0_r in Hemit. }
      rewrite (perform_bind_ok _ _ _ () Hfirst).
      cbn [outcome trace_of sequential].
      destruct (IH (parts ++ [default EmptyString delta])) as [-> ->].
      { intros k earlier Hk. rewrite length_app. simpl.
        specialize (Hemit (S k) earlier Hk).
        by replace (length parts + 1 + k)%nat with (length parts + S k)%nat by lia. }
      by rewrite <- !app_assoc.
    + cbn [sequential]. destruct (IH parts) as [-> ->]; [done|]. done.
Qed.

(** X5.  When the stream of the answer breaks after some chunks, and the
    client takes every fragment, [gen_answer] raises the exception of the
    stream; the fragments that arrived before the break have all been
    emitted, in order, and no answer is returned. *)
Theorem gen_answer_stream_breaks (w : World) (web_pages : list (option string))
    (stream : list (option string)) (e : exn) :
  answer_completion w (search_results_text web_pages)
  = Ok {| chunks := stream; stream_error := Some e |} →
  (∀ sent text, emitter_emit w sent (EvAnswer text) = Ok ()) →
  outcome (gen_answer w web_pages) = Raise e
  ∧ ∀ l, schedule (trace_of (gen_answer w web_pages)) l →
      l = ChatCompletion (AnswerPrompt (search_results_text web_pages))
          :: stream_actions stream
      ∧ answer_fragments l = fragments stream.
Proof.
  intros Hstream Hemit.
  destruct (consume_app w stream [] (Some e) [] (λ k text _, Hemit _ text)) as [Hout Hseq].
  rewrite app_nil_r in Hout, Hseq. simpl in Hout, Hseq. rewrite app_nil_r in Hseq.
  assert (gen_answer w web_pages
          = Run (Seq (Act (ChatCompletion (AnswerPrompt (search_results_text web_pages))))
                     (trace_of (consume w stream (Some e) [])))
                (Raise e)) as Hgen.
  { unfold gen_answer. rewrite (perform_bind_ok _ _ _ _ Hstream). cbn [outcome chunks stream_error trace_of].
    by rewrite (bind_raise _ _ _ Hout). }
  split; [by rewrite Hgen|].
  intros l Hl. apply schedule_par_free in Hl; [|apply gen_answer_par_free].
  subst l. rewrite Hgen. cbn [trace_of sequential]. rewrite Hseq. split; [done|].
  apply answer_fragments_stream_actions.
Qed.

(** X5 on the world whose stream breaks after its five chunks. *)
Lemma gen_answer_stream_breaks_witness :
  outcome (gen_answer broken_stream_world [Some "doc"]) = Raise APIError
  ∧ ∀ l, schedule (trace_of (gen_answer broken_stream_world [Some "doc"])) l →
      l = ChatCompletion (AnswerPrompt (search_results_text [Some "doc"]))
          :: stream_actions sample_stream
      ∧ answer_fragments l = fragments sample_stream.
Proof.
  apply (gen_answer_stream_breaks broken_stream_world [Some "doc"] sample_stream APIError);
    reflexivity.
Defined.

(** X6.  When the emission of a fragment fails, [gen_answer] stops there
    with the exception of the emitter: the chunks before it were taken
    and their fragments emitted, the failed emission is the last action,
    and no later chunk is taken from the stream.  The fragment that fails
    can be one that went through before: what matters is its rank among
    the fragments of the answer. *)
Theorem gen_answer_stops_at_failed_emission (w : World) (web_pages : list (option string))
    (before later : list (option string)) (text : string) (err : option exn) (e : exn) :
  answer_completion w (search_results_text web_pages)
  = Ok {| chunks := before ++ Some text :: later; stream_error := err |} →
  text ≠ EmptyString →
  (∀ k earlier,
     fragments before !! k = Some earlier →
     emitter_emit w k (EvAnswer earlier) = Ok ()) →
  emitter_emit w (length (fragments before)) (EvAnswer text) = Raise e →
  outcome (gen_answer w web_pages) = Raise e
  ∧ ∀ l, schedule (trace_of (gen_answer w web_pages)) l →
      l = ChatCompletion (AnswerPrompt (search_results_text web_pages))
          :: stream_actions before ++ [StreamChunk (Some text); Emit (EvAnswer text)].
Proof.
  intros Hstream Htext Hemit Hfail.
  destruct (consume_app w before (Some text :: later) err [] Hemit) as [Hout Hseq].
  assert (PyStr.truthy (Some text) = true) as Htruthy by by destruct text.
  assert (consume w (Some text :: later) err ([] ++ fragments before)
          = Run (Seq (Act (StreamChunk (Some text))) (Act (Emit (EvAnswer text))))
                (Raise e)) as Hstep.
  { cbn [consume]. rewrite (perform_bind_ok _ _ _ () eq_refl). rewrite Htruthy.
    cbn [outcome trace_of default]. unfold emit_answer, emit.
    rewrite (bind_raise _ _ e); [done|exact Hfail]. }
  rewrite Hstep in Hout, Hseq. cbn [outcome trace_of sequential] in Hout, Hseq.
  assert (gen_answer w web_pages
          = Run (Seq (Act (ChatCompletion (AnswerPrompt (search_results_text web_pages))))
                     (trace_of (consume w (before ++ Some text :: later) err [])))
                (Raise e)) as Hgen.
  { unfold gen_answer. rewrite (perform_bind_ok _ _ _ _ Hstream). cbn [outcome chunks stream_error trace_of].
    by rewrite (bind_raise _ _ _ Hout). }
  split; [by rewrite Hgen|].
  intros l Hl. apply schedule_par_free in Hl; [|apply gen_answer_par_free].
  subst l. rewrite Hgen. cbn [trace_of sequential]. by rewrite Hseq.
Qed.

(** X6 on the world whose client is lost after the first fragment: the
    second emission fails, of the very text the first one delivered. *)
Lemma gen_answer_stops_at_failed_emission_witness :
  outcome (gen_answer deaf_client_world [Some "doc"]) = Raise EmitterError
  ∧ ∀ l, schedule (trace_of (gen_answer deaf_client_world [Some "doc"])) l →
      l = ChatCompletion (AnswerPrompt (search_results_text [Some "doc"]))
          :: stream_actions [Some "very "; None]
             ++ [StreamChunk (Some "very "); Emit (EvAnswer "very ")].
Proof.
  apply (gen_answer_stops_at_failed_emission deaf_client_world [Some "doc"]
           [Some "very "; None] [Some "far."] "very " None EmitterError).
  - reflexivity.
  - done.
  - intros k earlier Hk. destruct k as [|k]; [reflexivity|]. by destruct k.
  - reflexivity.
Defined.

(** ** Quote stripping and tag values *)


(** X7.  What [strip_quotes] returns, the search query or the
    classification text, neither begins nor ends with a single quote.  It
    can still begin or end with a double quote, since the double quotes
    are stripped first: a double quote inside single quotes is left. *)
Theorem strip_quotes_no_single_quote_at_ends (content : string) :
  (∀ rest, strip_quotes content ≠ String PyStr.squote rest)
  ∧ (∀ start, strip_quotes content ≠ start +:+ squote_chars)
  ∧ strip_quotes ("'" +:+ dquote_chars +:+ "'") = dquote_chars.
Proof.
  destruct (strip_by_ends (λ c, PyStr.mem c squote_chars)
              (PyStr.strip dquote_chars content)) as [Hhead Hlast].
  split; [|split; [|reflexivity]].
  - intros rest H. by apply Hhead in H.
  - intros start H. by apply Hlast in H.
Qed.

(** X8.  A pair of double quotes around the model output changes
    nothing: the search query of a quoted rewrite output is the one of the
    output itself, and a quoted classification output gives the same tags,
    or the same parse failure. *)
Theorem double_quotes_around_output_ignored (content : string) :
  strip_quotes (String PyStr.dquote content +:+ dquote_chars) = strip_quotes content
  ∧ classify (String PyStr.dquote content +:+ dquote_chars) = classify content.
Proof.
  assert (strip_quotes (String PyStr.dquote content +:+ dquote_chars)
          = strip_quotes content) as H.
  { unfold strip_quotes, PyStr.strip. f_equal. by apply strip_by_wrapped. }
  split; [done|]. unfold classify. by rewrite H.
Qed.

Lemma foldl_insert_last (pairs : list (string * string)) (d : gmap string string) key value :
  foldl (λ d kv, <[kv.1 := kv.2]> d) d (pairs ++ [(key, value)]) !! key = Some value.
Proof. rewrite foldl_app. simpl. apply lookup_insert_eq. Qed.

Lemma dict_last_wins (earlier later : list (string * string)) key value :
  key ∉ later.*1 → dict (earlier ++ (key, value) :: later) !! key = Some value.
Proof.
  intros Hnot. unfold dict.
  change (earlier ++ (key, value) :: later) with (earlier ++ [(key, value)] ++ later).
  rewrite app_assoc, foldl_app, foldl_insert_absent by done.
  apply foldl_insert_last.
Qed.

(** X9.  When the classification output carries a recognized key more
    than once, the last pair decides; and the field is true exactly when
    the value of that pair, whitespace stripped, is [YES] letter for
    letter: any other value (NO, yes, MAYBE) gives false, also for the
    fields whose default is true. *)
Theorem last_pair_decides_tag (content key value : string)
    (earlier later : list (string * string)) :
  tag_pairs (strip_quotes content) = Ok (earlier ++ (key, value) :: later) →
  key ∉ later.*1 →
  key ∈ recognized_keys →
  ∃ t, classify content = Ok t
       ∧ tag_field key t = Some (bool_decide (PyStr.strip_space value = "YES")).
Proof.
  intros Hpairs Hlast Hkey.
  exists (query_tags (dict (earlier ++ (key, value) :: later))).
  split; [unfold classify; by rewrite Hpairs|].
  pose proof (dict_last_wins earlier later key value Hlast) as Hlookup.
  unfold recognized_keys in Hkey.
  repeat (apply elem_of_cons in Hkey as [->|Hkey]);
    [..|by apply elem_of_nil in Hkey];
    unfold tag_field, query_tags, tag_is_yes; simpl; by rewrite Hlookup.
Qed.

(** X9 on an output that says MATH twice and SEARCH_NEEDED in lower case. *)
Lemma last_pair_decides_tag_witness :
  (∃ t, classify "MATH:NO,SEARCH_NEEDED:yes, MATH: YES " = Ok t
        ∧ tag_field "MATH" t = Some (bool_decide (PyStr.strip_space " YES" = "YES")))
  ∧ (∃ t, classify "MATH:NO,SEARCH_NEEDED:yes, MATH: YES " = Ok t
          ∧ tag_field "SEARCH_NEEDED" t
            = Some (bool_decide (PyStr.strip_space "yes" = "YES"))).
Proof.
  split.
  - apply (last_pair_decides_tag "MATH:NO,SEARCH_NEEDED:yes, MATH: YES " "MATH" " YES"
             [("MATH", "NO"); ("SEARCH_NEEDED", "yes")] []).
    + reflexivity.
    + simpl. apply not_elem_of_nil.
    + unfold recognized_keys. do 4 right. left.
  - apply (last_pair_decides_tag "MATH:NO,SEARCH_NEEDED:yes, MATH: YES "
             "SEARCH_NEEDED" "yes" [("MATH", "NO")] [("MATH", " YES")]).
    + reflexivity.
    + simpl. intros H%list_elem_of_singleton. discriminate H.
    + unfold recognized_keys. left.
Defined.

(** ** Runs, whatever their outcome *)

Lemma bind_sequential {A B} (m : M A) (f : A → M B) :
  sequential (trace_of (m ≫= f))
  = sequential (trace_of m)
    ++ match outcome m with
       | Ok a => sequential (trace_of (f a))
       | Raise _ => []
       end.
Proof.
  unfold mbind, M_bind. destruct (outcome m); simpl; [done|]. by rewrite app_nil_r.
Qed.

Lemma bind_outcome {A B} (m : M A) (f : A → M B) :
  outcome (m ≫= f)
  = match outcome m with
    | Ok a => outcome (f a)
    | Raise e => Raise e
    end.
Proof. unfold mbind, M_bind. by destruct (outcome m). Qed.

Lemma bind_Forall {A B} (P : action → Prop) (m : M A) (f : A → M B) :
  Forall P (sequential (trace_of m)) →
  (∀ a, Forall P (sequential (trace_of (f a)))) →
  Forall P (sequential (trace_of (m ≫= f))).
Proof.
  intros Hm Hf. rewrite bind_sequential. apply Forall_app_2; [done|].
  destruct (outcome m); [apply Hf|constructor].
Qed.

Lemma consume_alphabet w chunks err parts :
  Forall answer_alphabet (sequential (trace_of (consume w chunks err parts))).
Proof.
  revert parts. induction chunks as [|delta chunks IH]; intros parts; cbn [consume].
  - destruct err; constructor.
  - apply bind_Forall; [by repeat constructor|]. intros _.
    destruct (PyStr.truthy delta); [|apply IH].
    apply bind_Forall; [by repeat constructor|]. intros _. apply IH.
Qed.

Lemma gen_answer_alphabet w web_pages :
  Forall answer_alphabet (sequential (trace_of (gen_answer w web_pages))).
Proof.
  unfold gen_answer. apply bind_Forall; [by repeat constructor|]. intros response.
  apply bind_Forall; [apply consume_alphabet|]. intros parts. constructor.
Qed.

Lemma process_user_query_alphabet w :
  Forall (λ a, ∃ p, a = ChatCompletion p) (sequential (trace_of (process_user_query w))).
Proof.
  unfold process_user_query. apply bind_Forall.
  - simpl. repeat (constructor; [by eauto|]). constructor.
  - intros [rewrite content]. apply bind_Forall; [constructor|]. intros t. constructor.
Qed.

Lemma search_mediums_alphabet w query cats :
  Forall (λ a, ∃ input, a = SearxNG input)
    (sequential (trace_of (search_mediums w query cats))).
Proof.
  rewrite search_mediums_sequential. destruct cats; repeat constructor. eauto.
Qed.

(** The part of a run that comes before the hand-over never hands over. *)
Lemma bind_failed_save {A} (w : World) (m : M A) (f : A → M unit) :
  Forall (λ a, is_save a = false) (sequential (trace_of m)) →
  (∀ a e thread record,
     outcome (f a) = Raise e →
     SaveChatHistory thread record ∈ sequential (trace_of (f a)) →
     save_chat_history w thread record = Raise e) →
  ∀ e thread record,
    outcome (m ≫= f) = Raise e →
    SaveChatHistory thread record ∈ sequential (trace_of (m ≫= f)) →
    save_chat_history w thread record = Raise e.
Proof.
  intros Hm Hf e thread record. rewrite bind_outcome, bind_sequential, elem_of_app.
  rewrite Forall_forall in Hm.
  destruct (outcome m) as [a|e'].
  - intros He [Hin|Hin]; [by apply Hm in Hin|]. by apply (Hf a).
  - intros _ [Hin|Hin]; [by apply Hm in Hin|by apply elem_of_nil in Hin].
Qed.

Lemma Forall_not_save (P : action → Prop) (l : list action) :
  (∀ a, P a → is_save a = false) → Forall P l → Forall (λ a, is_save a = false) l.
Proof. intros HP Hl. eapply Forall_impl; [exact Hl|exact HP]. Qed.

(** X10.  A run that ends with an exception has persisted nothing: in
    every schedule of such a run, a hand-over to the chat store, if there
    is one, is the very call that raised the exception of the run.  So
    when the chat store accepts every record, a failed run leaves no
    record at all. *)
Theorem failed_run_persists_nothing (w : World) (user_message : string) (e : exn)
    (l : list action) :
  outcome (run w user_message) = Raise e →
  schedule (trace_of (run w user_message)) l →
  (∀ thread record,
     SaveChatHistory thread record ∈ l → save_chat_history w thread record = Raise e)
  ∧ ((∀ thread record, save_chat_history w thread record = Ok ()) →
     Forall (λ a, is_save a = false) l).
Proof.
  intros He Hl.
  assert (∀ thread record,
            SaveChatHistory thread record ∈ sequential (trace_of (run w user_message)) →
            save_chat_history w thread record = Raise e) as Hsave.
  { intros thread record. revert e thread record He. unfold run.
    apply bind_failed_save; [by repeat constructor|]. intros _.
    apply bind_failed_save.
    { eapply Forall_not_save; [|apply process_user_query_alphabet]. by intros a [p ->]. }
    intros enriched_query. cbv zeta.
    apply bind_failed_save; [by repeat constructor|]. intros [search_results []].
    apply bind_failed_save.
    { cbn [gather3 trace_of sequential emit_web_results emit perform].
      repeat apply Forall_app_2.
      - by repeat constructor.
      - eapply Forall_not_save; [|apply fetch_web_pages_alphabet]. by intros [].
      - eapply Forall_not_save; [|apply search_mediums_alphabet]. by intros a [p ->]. }
    intros [[[] web_pages] medium_results].
    apply bind_failed_save.
    { cbn [gather2 trace_of sequential emit_medium_results emit perform].
      apply Forall_app_2; [|by repeat constructor].
      eapply Forall_not_save; [|apply gen_answer_alphabet]. by intros [| | |[]| | | |]. }
    intros [answer []] e thread record Hout Hin.
    cbn [perform trace_of sequential outcome] in Hout, Hin.
    apply list_elem_of_singleton in Hin. injection Hin as -> ->. done. }
  split.
  - intros thread record Hin. apply Hsave. by apply (schedule_elem_of _ _ _ Hl).
  - intros Hstore. apply Forall_forall. intros a Hin.
    destruct a as [| | | | | | |thread record]; try done.
    apply (schedule_elem_of _ _ _ Hl), Hsave in Hin. by rewrite Hstore in Hin.
Qed.

(** X10 on the world whose chat store refuses the record. *)
Lemma failed_run_persists_nothing_witness :
  (∀ thread record,
     SaveChatHistory thread record
     ∈ sequential (trace_of (run full_store_world "How far is Mars?")) →
     save_chat_history full_store_world thread record = Raise StoreError)
  ∧ ((∀ thread record, save_chat_history full_store_world thread record = Ok ()) →
     Forall (λ a, is_save a = false)
       (sequential (trace_of (run full_store_world "How far is Mars?")))).
Proof.
  apply (failed_run_persists_nothing full_store_world "How far is Mars?" StoreError).
  - reflexivity.
  - apply schedule_sequential.
Defined.

Lemma process_user_query_ok w rewrite content t :
  search_completion w = Ok rewrite →
  classification_completion w = Ok content →
  classify content = Ok t →
  outcome (process_user_query w)
  = Ok {| search_query := strip_quotes rewrite; tags := Some t |}.
Proof.
  intros Hr Hc Ht. unfold process_user_query, gather2, perform, pure, mbind, M_bind.
  simpl. rewrite Hr, Hc. simpl. by rewrite Ht.
Qed.

(** X11.  When the general search fails, the run ends with an exception:
    the one of the search, or, if the metadata emission gathered with it
    fails too, one of the two; the one of the search when the emission
    goes through.  The metadata event, which is emitted beside the
    search, is the only event of the run: no web results, no media, no
    answer; no page is requested and nothing is persisted. *)
Theorem general_search_failure_ends_run (w : World)
    (user_message rewrite content : string) (t : QueryTags) (e : exn) (l : list action) :
  load_chat_history w = Ok () →
  search_completion w = Ok rewrite →
  classification_completion w = Ok content →
  classify content = Ok t →
  searxng_search_results_json w (general_input (strip_quotes rewrite)) = Raise e →
  schedule (trace_of (run w user_message)) l →
  (∃ raised,
     outcome (run w user_message) = Raise raised
     ∧ (raised = e
        ∨ emitter_emit w 0 (EvMetadata {| metadata_has_math := has_math t |})
          = Raise raised)
     ∧ (emitter_emit w 0 (EvMetadata {| metadata_has_math := has_math t |}) = Ok () →
        raised = e))
  ∧ events l = [EvMetadata {| metadata_has_math := has_math t |}]
  ∧ search_inputs l = [general_input (strip_quotes rewrite)]
  ∧ fetched_urls l = []
  ∧ prompts l ≡ₚ [SearchPrompt; ClassificationPrompt]
  ∧ Forall (λ a, is_save a = false) l.
Proof.
  intros Hload Hr Hc Ht Hsearch Hl.
  pose proof (process_user_query_ok w rewrite content t Hr Hc Ht) as Hq.
  assert (outcome (run w user_message) = Raise e
          ∧ sequential (trace_of (run w user_message))
            = [LoadChatHistory; ChatCompletion SearchPrompt;
               ChatCompletion ClassificationPrompt;
               SearxNG (general_input (strip_quotes rewrite));
               Emit (EvMetadata {| metadata_has_math := has_math t |})]) as [Hout Hseq].
  { unfold run. rewrite (perform_bind_ok _ _ _ () Hload).
    rewrite (bind_ok _ _ _ Hq). cbn [outcome trace_of search_query tags sequential].
    unfold general_input in Hsearch.
    rewrite (bind_raise _ _ e); [|simpl; by rewrite Hsearch].
    cbn [outcome trace_of sequential gather2 perform emit_metadata emit].
    destruct (process_user_query_ok_inv w _ Hq) as (? & ? & ? & _ & _ & _ & _ & ->).
    done. }
  pose proof (schedule_perm _ _ Hl) as Hperm. rewrite Hseq in Hperm.
  split; [exists e; split; [done|]; split; [by left|done]|].
  split; [|split; [|split; [|split]]].
  - apply Permutation_singleton_r. unfold events. by rewrite Hperm.
  - apply Permutation_singleton_r. unfold search_inputs. by rewrite Hperm.
  - apply Permutation_nil_r. unfold fetched_urls. by rewrite Hperm.
  - unfold prompts. by rewrite Hperm.
  - rewrite Hperm. by repeat constructor.
Qed.

(** X11 on the world whose search backend is down. *)
Lemma general_search_failure_ends_run_witness :
  (∃ raised,
     outcome (run cancelled_world "How far is Mars?") = Raise raised
     ∧ (raised = SearchError
        ∨ emitter_emit cancelled_world 0 (EvMetadata {| metadata_has_math := false |})
          = Raise raised)
     ∧ (emitter_emit cancelled_world 0 (EvMetadata {| metadata_has_math := false |})
        = Ok () → raised = SearchError))
  ∧ events (sequential (trace_of (run cancelled_world "How far is Mars?")))
    = [EvMetadata {| metadata_has_math := false |}]
  ∧ search_inputs (sequential (trace_of (run cancelled_world "How far is Mars?")))
    = [general_input (strip_quotes "Mars")]
  ∧ fetched_urls (sequential (trace_of (run cancelled_world "How far is Mars?"))) = []
  ∧ prompts (sequential (trace_of (run cancelled_world "How far is Mars?")))
    ≡ₚ [SearchPrompt; ClassificationPrompt]
  ∧ Forall (λ a, is_save a = false)
      (sequential (trace_of (run cancelled_world "How far is Mars?"))).
Proof.
  apply (general_search_failure_ends_run cancelled_world "How far is Mars?" "Mars" "MATH:NO"
           {| needs_search := true; needs_image := true; needs_video := true;
              content_violation := false; has_math := false |} SearchError).
  1-5: reflexivity.
  apply schedule_sequential.
Defined.

(** X12.  The tags [needs_search] and [content_violation] are computed
    and never acted upon: two classification outputs whose tags agree on
    [needs_image], [needs_video] and [has_math] give, in the same world,
    the same run, action for action and with the same outcome.  In
    particular the general search is made also when the classification
    says that no search is needed. *)
Theorem needs_search_and_violation_unused (w : World) (user_message : string)
    (content1 content2 : string) (t1 t2 : QueryTags) :
  classify content1 = Ok t1 →
  classify content2 = Ok t2 →
  needs_image t1 = needs_image t2 →
  needs_video t1 = needs_video t2 →
  has_math t1 = has_math t2 →
  run (with_classification w content1) user_message
  = run (with_classification w content2) user_message.
Proof.
  intros H1 H2 Hi Hv Hm.
  unfold run, process_user_query, gather2, perform, pure, mbind, M_bind, mret, M_ret.
  cbn [with_classification load_chat_history search_completion classification_completion
       outcome trace_of].
  destruct (load_chat_history w) as [[]|e0]; [|done].
  destruct (search_completion w) as [rewrite|e1]; [|done].
  cbn [outcome trace_of]. rewrite H1, H2. cbn [outcome trace_of search_query tags].
  destruct t1 as [s1 i1 v1 c1 m1], t2 as [s2 i2 v2 c2 m2].
  cbn [needs_image needs_video has_math] in Hi, Hv, Hm. subst i2 v2 m2.
  reflexivity.
Qed.

(** X12 on two outputs that differ in SEARCH_NEEDED and CONTENT_VIOLATION. *)
Lemma needs_search_and_violation_unused_witness :
  run (with_classification sample_world "SEARCH_NEEDED:NO,CONTENT_VIOLATION:YES")
      "How far is Mars?"
  = run (with_classification sample_world "SEARCH_NEEDED:YES") "How far is Mars?".
Proof.
  apply (needs_search_and_violation_unused sample_world "How far is Mars?"
           "SEARCH_NEEDED:NO,CONTENT_VIOLATION:YES" "SEARCH_NEEDED:YES"
           {| needs_search := false; needs_image := true; needs_video := true;
              content_violation := true; has_math := false |}
           {| needs_search := true; needs_image := true; needs_video := true;
              content_violation := false; has_math := false |});
    reflexivity.
Defined.

(** ** What the model and the client see of a run that reaches its end *)



Lemma events_stream_actions stream :
  events (stream_actions stream) = map EvAnswer (fragments stream).
Proof.
  induction stream as [|delta stream IH]; [done|].
  rewrite fragments_cons, map_app, <- IH. unfold stream_actions, events. simpl.
  by destruct (PyStr.truthy delta).
Qed.

Lemma events_alphabet_nil (P : action → Prop) (l : list action) :
  (∀ a, P a → match a with Emit _ => False | _ => True end) →
  Forall P l → events l = [].
Proof.
  intros HP Hl. apply omap_nil_elem_of. intros a Ha.
  rewrite Forall_forall in Hl. specialize (HP a (Hl a Ha)). by destruct a.
Qed.

(** X14.  What the client receives from a run that reaches its end, in
    every schedule: the metadata event first, then the web results, and
    then the fragments of the answer in their order of arrival, with the
    medium-results event once, at any place among them. *)
Theorem client_event_sequence (w : World) (user_message : string) (l : list action) :
  outcome (run w user_message) = Ok () →
  schedule (trace_of (run w user_message)) l →
  ∃ m data payload web_pages stream rest,
    events l = EvMetadata m :: EvWebResults data :: rest
    ∧ interleave (map EvAnswer (fragments stream)) [EvMediumResults payload] rest
    ∧ answer_completion w (search_results_text web_pages)
      = Ok {| chunks := stream; stream_error := None |}.
Proof.
  intros Hok Hl.
  destruct (run_ok_inv w user_message Hok)
    as (rewrite & content & t & sr & pages & mr & ans
        & Hr & Hc & Ht & Hs & Hf & Hm & Ha & Htrace).
  rewrite Htrace in Hl. unfold run_trace in Hl.
  apply schedule_seq_inv in Hl as (l0 & l1 & -> & ->%schedule_act_inv & Hl).
  apply schedule_seq_inv in Hl as (lq & l2 & -> & Hq & Hl).
  apply schedule_seq_inv in Hl as (ls & l3 & -> & Hsearch & Hl).
  apply schedule_seq_inv in Hl as (lf & l4 & -> & Hfetch & Hl).
  apply schedule_seq_inv in Hl as (la & l5 & -> & Hans & ->%schedule_act_inv).
  destruct (gen_answer_ok_inv w pages ans Ha) as (stream & Hstream & _ & Hseq).
  exists {| metadata_has_math := has_math t |}, (map trim_result (general sr)),
    (flatten_mediums (or_empty mr)), pages, stream, (events la).
  assert (events lq = []) as Hlq.
  { eapply events_alphabet_nil;
      [|exact (schedule_Forall _ _ _ Hq (process_user_query_alphabet w))].
    by intros a [p ->]. }
  assert (events ls = [EvMetadata {| metadata_has_math := has_math t |}]) as Hls.
  { apply Permutation_singleton_r. unfold events. by rewrite (schedule_perm _ _ Hsearch). }
  assert (events lf = [EvWebResults (map trim_result (general sr))]) as Hlf.
  { apply Permutation_singleton_r. unfold events. rewrite (schedule_perm _ _ Hfetch).
    cbn [sequential]. rewrite !omap_app, search_mediums_sequential.
    rewrite omap_fetch_nil by done. cbn [omap list_omap].
    by destruct (medium_categories (Some t)). }
  split; [|split; [|done]].
  - unfold events in *. rewrite !omap_app, Hlq, Hls, Hlf. simpl. by rewrite app_nil_r.
  - apply schedule_par_inv in Hans as (lg & lm & Hg & ->%schedule_act_inv & Hla).
    apply schedule_par_free in Hg; [|apply gen_answer_par_free].
    rewrite Hg, Hseq in Hla.
    apply (interleave_omap (λ a, match a with Emit e => Some e | _ => None end)) in Hla.
    simpl in Hla. fold (events (stream_actions stream)) in Hla.
    by rewrite events_stream_actions in Hla.
Qed.

(** X14 on the sample world. *)
Lemma client_event_sequence_witness :
  ∃ m data payload web_pages stream rest,
    events (sequential (trace_of (run sample_world "How far is Mars?")))
    = EvMetadata m :: EvWebResults data :: rest
    ∧ interleave (map EvAnswer (fragments stream)) [EvMediumResults payload] rest
    ∧ answer_completion sample_world (search_results_text web_pages)
      = Ok {| chunks := stream; stream_error := None |}.
Proof.
  apply (client_event_sequence sample_world "How far is Mars?").
  - reflexivity.
  - apply schedule_sequential.
Defined.
